(** * Request/response and greeting workflows

    A shallow embedding of the two workflow classes of the repository,
    [UppercaseWorkflowUpdate] (reqrespupdate/workflow.py) and
    [GreetingWorkflow] (message_passing/introduction/workflows.py), together
    with the polling loop of reqrespupdate/requester.py.

    A workflow instance is a single-threaded cooperative process: the body of
    [run] and the bodies of the handlers only interleave at [await] points.
    Each workflow is therefore modelled by a record holding the fields of the
    Python object, a program counter for every suspended coroutine, and an
    executable step function that takes one delivery of the runtime (a
    signal, an update, a query, the completion of an activity, or the
    resumption of a coroutine that is ready to run) to the next state.

    Python [str] values are modelled by [string]; [str.upper] is modelled on
    the ASCII letters, every other character is left as it is. *)

From Stdlib Require Import ZArith Ascii String List.
From stdpp Require Import base option list strings gmap fin_maps sorting.

Local Open Scope Z_scope.

(** ** The request queue workflow (reqrespupdate/workflow.py) *)

Module Queue.

(** [str.upper] on ASCII text. *)
Definition upper_ascii (c : ascii) : ascii :=
  let n := nat_of_ascii c in
  if (andb (Nat.leb 97 n) (Nat.leb n 122)) then ascii_of_nat (n - 32) else c.

Fixpoint upper (s : string) : string :=
  match s with
  | EmptyString => EmptyString
  | String c rest => String (upper_ascii c) (upper rest)
  end.

(** [uppercase_activity(text)] returns [text.upper()].  [upper] agrees with
    [str.upper] on ASCII text; what is stated about an uppercased value is
    stated for such text. *)
Definition uppercase_activity (text : string) : string := upper text.

Record Request := mkRequest { id : string; input : string }.

Record UppercaseParams := mkParams {
  p_initial_message : string;
  previous_responses : gmap string string
}.

(** The fields of an [UppercaseWorkflowUpdate] object. *)
Record Workflow := mkWorkflow {
  requests_buffer : list Request;
  responses_map : gmap string string;
  request_count : Z;
  pending_updates : Z;
  threshold_for_continue : Z;
  initial_message : string
}.

Definition with_buffer (b : list Request) (w : Workflow) : Workflow :=
  mkWorkflow b (responses_map w) (request_count w) (pending_updates w)
             (threshold_for_continue w) (initial_message w).

Definition with_responses (m : gmap string string) (w : Workflow) : Workflow :=
  mkWorkflow (requests_buffer w) m (request_count w) (pending_updates w)
             (threshold_for_continue w) (initial_message w).

Definition with_count (n : Z) (w : Workflow) : Workflow :=
  mkWorkflow (requests_buffer w) (responses_map w) n (pending_updates w)
             (threshold_for_continue w) (initial_message w).

Definition with_pending (n : Z) (w : Workflow) : Workflow :=
  mkWorkflow (requests_buffer w) (responses_map w) (request_count w) n
             (threshold_for_continue w) (initial_message w).

Definition with_message (s : string) (w : Workflow) : Workflow :=
  mkWorkflow (requests_buffer w) (responses_map w) (request_count w)
             (pending_updates w) (threshold_for_continue w) s.

(** [dict.copy()]: a map with the same entries. *)
Definition copy (m : gmap string string) : gmap string string := m.

(** [__init__]: an empty dict is falsy, so [previous_responses.copy() if
    previous_responses else {}] takes the second branch for it. *)
Definition init (params : UppercaseParams) : Workflow :=
  mkWorkflow []
             (if decide (previous_responses params = ∅) then ∅
              else copy (previous_responses params))
             0 0 5 (p_initial_message params).

(** The signal handler [request]. *)
Definition request (req : Request) (w : Workflow) : Workflow :=
  with_buffer (requests_buffer w ++ [req]) w.

(** The update handler [set_response]; it has no suspension point. *)
Definition set_response (req_id result : string) (w : Workflow) : Workflow * bool :=
  (with_responses (<[req_id := result]> (responses_map w)) w, true).

(** The query handler [get_response]: [dict.get(req_id, "")]. *)
Definition get_response (req_id : string) (w : Workflow) : string :=
  default EmptyString (responses_map w !! req_id).

(** *** The [run] coroutine

    The program counter of [run] names the line at which it stands.  It is
    suspended at [AtWait] (the [wait_condition] of line 65) and at
    [AtActivity] (the [execute_activity] of line 76); [AtLoop] (line 71) and
    [AtCheck] (line 88) are passed without suspension.  [Continued] is the
    generation after [continue_as_new] has been called.  [wait_condition] is
    called without a timeout, so it returns only when the buffer is not
    empty and the [except TimeoutError] branch is never taken. *)
Inductive PC :=
  | AtWait
  | AtLoop
  | AtActivity (req : Request)
  | AtCheck
  | Continued (params : UppercaseParams).

Record Machine := mkMachine {
  wf : Workflow;
  pc : PC;
  (* history, not a field of the program: the requests whose activity
     succeeded and whose result was stored by [run] *)
  completed : list Request
}.

(** Lines 72-74: pop the oldest request and count it. *)
Definition dequeue (req : Request) (rest : list Request) (w : Workflow) : Workflow :=
  let w1 := with_buffer rest w in
  let w2 := with_count (request_count w1 + 1) w1 in
  with_pending (pending_updates w2 + 1) w2.

(** Lines 75-85, from the completion of the activity: [ok] tells whether
    [execute_activity] returned or raised. *)
Definition finish (req : Request) (ok : bool) (w : Workflow) : Workflow :=
  let w1 :=
    if ok then fst (set_response (id req) (uppercase_activity (input req)) w)
    else w (* the exception is logged *) in
  with_pending (pending_updates w1 - 1) w1.

(** Lines 91-94. *)
Definition new_params (w : Workflow) : UppercaseParams :=
  mkParams EmptyString (copy (responses_map w)).

(** Line 88. *)
Definition should_continue (w : Workflow) : bool :=
  bool_decide (request_count w >= threshold_for_continue w)
  && bool_decide (pending_updates w = 0).

(** [run] is entered with the object built by [__init__]; line 60. *)
Definition start (params : UppercaseParams) : Machine :=
  mkMachine (with_message (p_initial_message params) (init params)) AtWait [].

Inductive Event :=
  | EvSignal (req : Request)              (* request *)
  | EvUpdate (req_id result : string)     (* set_response sent by a client *)
  | EvQuery (req_id : string)             (* get_response *)
  | EvActivityDone (ok : bool)            (* the activity returned or failed *)
  | EvRun.                                (* [run] proceeds *)

(** The handlers run only while [run] is suspended. *)
Definition suspended (p : PC) : bool :=
  match p with
  | AtWait | AtActivity _ => true
  | _ => false
  end.

Definition step (ev : Event) (m : Machine) : option Machine :=
  match ev with
  | EvSignal req =>
      if suspended (pc m) then Some (mkMachine (request req (wf m)) (pc m) (completed m))
      else None
  | EvUpdate req_id result =>
      if suspended (pc m)
      then Some (mkMachine (fst (set_response req_id result (wf m))) (pc m) (completed m))
      else None
  | EvQuery _ =>
      if suspended (pc m) then Some m else None
  | EvActivityDone ok =>
      match pc m with
      | AtActivity req =>
          Some (mkMachine (finish req ok (wf m)) AtLoop
                          (if ok then completed m ++ [req] else completed m))
      | _ => None
      end
  | EvRun =>
      match pc m with
      | AtWait =>
          match requests_buffer (wf m) with
          | [] => None   (* the condition of line 65 does not hold *)
          | _ :: _ => Some (mkMachine (wf m) AtLoop (completed m))
          end
      | AtLoop =>
          match requests_buffer (wf m) with
          | req :: rest => Some (mkMachine (dequeue req rest (wf m)) (AtActivity req) (completed m))
          | [] => Some (mkMachine (wf m) AtCheck (completed m))
          end
      | AtActivity _ => None
      | AtCheck =>
          if should_continue (wf m)
          then Some (mkMachine (wf m) (Continued (new_params (wf m))) (completed m))
          else Some (mkMachine (wf m) AtWait (completed m))
      | Continued params =>
          (* the next generation *)
          Some (mkMachine (wf (start params)) AtWait (completed m))
      end
  end.

Fixpoint run_events (evs : list Event) (m : Machine) : option Machine :=
  match evs with
  | [] => Some m
  | ev :: rest =>
      match step ev m with
      | Some m' => run_events rest m'
      | None => None
      end
  end.

(** The workflow as starter.py starts it. *)
Definition boot : Machine := start (mkParams EmptyString ∅).

(** States reached from [m0] by deliveries taken from [allowed]. *)
Inductive reachable (allowed : Event -> Prop) (m0 : Machine) : Machine -> Prop :=
  | reach_init : reachable allowed m0 m0
  | reach_step m ev m' :
      reachable allowed m0 m -> allowed ev -> step ev m = Some m' ->
      reachable allowed m0 m'.

Definition any_event (ev : Event) : Prop := True.

(** Every delivery but a [set_response] update sent by a client. *)
Definition no_client_update (ev : Event) : Prop :=
  match ev with
  | EvUpdate _ _ => False
  | _ => True
  end.

(** The number of activity invocations that [run] has scheduled and that
    have not completed yet. *)
Definition outstanding (p : PC) : Z :=
  match p with
  | AtActivity _ => 1
  | _ => 0
  end.

(** The deliveries of a drain in which no handler interleaves: each request
    is dequeued and its activity completes with the given outcome. *)
Definition drain_events (oks : list bool) : list Event :=
  concat (map (fun ok => [EvRun; EvActivityDone ok]) oks).

(** *** The polling loop of requester.py (lines 28-33)

    [snapshot n] is the workflow object that the [n]-th query reads. *)
Definition truthy (s : string) : bool :=
  match s with
  | EmptyString => false
  | String _ _ => true
  end.

Fixpoint poll (attempts : list nat) (snapshot : nat -> Workflow) (req_id : string) : string :=
  match attempts with
  | [] => EmptyString
  | n :: rest =>
      let response := get_response req_id (snapshot n) in
      if truthy response then response else poll rest snapshot req_id
  end.

Definition request_uppercase_poll (snapshot : nat -> Workflow) (req_id : string) : string :=
  poll (seq 0 20) snapshot req_id.

(** The state in which five requests have been enqueued and drained. *)
Definition five_requests : list Request :=
  [mkRequest "1" "foo0"; mkRequest "2" "foo1"; mkRequest "3" "foo2";
   mkRequest "4" "foo3"; mkRequest "5" "foo4"].

Definition five_events : list Event :=
  map EvSignal five_requests ++ [EvRun]
  ++ drain_events [true; true; true; true; true] ++ [EvRun].

Definition five_drained : Machine :=
  mkMachine
    (mkWorkflow []
       (list_to_map [("1", "FOO0"); ("2", "FOO1"); ("3", "FOO2");
                     ("4", "FOO3"); ("5", "FOO4")]%string)
       5 0 5 EmptyString)
    AtCheck five_requests.

(** The entries of the table come from completed requests, as long as no
    client sends a [set_response] update. *)
Definition entries_completed (m : Machine) : Prop :=
  (forall k : string,
      is_Some (responses_map (wf m) !! k) ->
      exists req, req ∈ completed m /\ id req = k)
  /\ (forall params, pc m = Continued params ->
        previous_responses params = responses_map (wf m)).

(** An update that a client sends before any request exists. *)
Definition stray_update : list Event := [EvUpdate "ghost" "boo"].

End Queue.

(** ** The greeting workflow (message_passing/introduction/workflows.py) *)

Module Greeting.

Section WithLanguage.

(** The enumeration [Language] is declared in the package's [__init__.py];
    the workflow uses it as a type of dictionary keys with the two members
    [CHINESE] and [ENGLISH] of the initial dictionary. *)
Context {Language : Type} `{Countable Language}.
Variables (CHINESE ENGLISH : Language).

(** [asyncio.Lock].  [owner] is the handler inside the [async with] block,
    so the lock is locked when [owner] is not [None]; [waiters] are the
    handlers suspended in [acquire], oldest first. *)
Record Lock := mkLock {
  owner : option nat;
  waiters : list nat
}.

(** The fields of a [GreetingWorkflow] object. *)
Record Workflow := mkWorkflow {
  approved_for_release : bool;
  approver_name : option string;
  greetings : gmap Language string;
  language : Language;
  lock : Lock
}.

Definition with_greetings (g : gmap Language string) (w : Workflow) : Workflow :=
  mkWorkflow (approved_for_release w) (approver_name w) g (language w) (lock w).

Definition with_language (l : Language) (w : Workflow) : Workflow :=
  mkWorkflow (approved_for_release w) (approver_name w) (greetings w) l (lock w).

Definition with_lock (k : Lock) (w : Workflow) : Workflow :=
  mkWorkflow (approved_for_release w) (approver_name w) (greetings w) (language w) k.

(** [__init__]. *)
Definition init : Workflow :=
  mkWorkflow false None
             (<[ENGLISH := "Hello, world"%string]>
                (<[CHINESE := "你好，世界"%string]> ∅))
             ENGLISH (mkLock None []).

(** The signal handler [approve]. *)
Definition approve (name : string) (w : Workflow) : Workflow :=
  mkWorkflow true (Some name) (greetings w) (language w) (lock w).

(** [language in self.greetings]. *)
Definition supported (l : Language) (w : Workflow) : bool :=
  bool_decide (is_Some (greetings w !! l)).

(** The validator [validate_language]: [true] when it returns, [false] when
    it raises [ValueError].  It reads the object and returns no new one. *)
Definition validate_language (l : Language) (w : Workflow) : bool :=
  supported l w.

(** The body shared by lines 79-80 and lines 114-115: the swap of the
    current language, returning the previous one. *)
Definition swap_language (l : Language) (w : Workflow) : Workflow * Language :=
  (with_language l w, language w).

(** The update handler [set_language]. *)
Definition set_language (l : Language) (w : Workflow) : Workflow * Language :=
  swap_language l w.

(** What a delivery gives back to its caller. *)
Inductive Output :=
  | NoOutput
  | Previous (l : Language)      (* an update returned the previous language *)
  | Rejected                     (* the validator raised: the update is not accepted *)
  | ApplicationError             (* line 110 *)
  | ActivityError                (* the activity raised *)
  | Current (l : Language)       (* get_language *)
  | Result (greeting : string)   (* the result of run *)
  | KeyError.

(** An update with a validator: the runtime calls the validator and runs the
    handler only if the validator returns. *)
Definition update_set_language (l : Language) (w : Workflow) : Workflow * Output :=
  if validate_language l w
  then let (w', previous) := set_language l w in (w', Previous previous)
  else (w, Rejected).

(** [asyncio.Lock.acquire]: the lock is taken at once when it is free and
    nobody waits for it; otherwise the caller joins the waiters. *)
Definition acquire (h : nat) (k : Lock) : Lock * bool :=
  match owner k, waiters k with
  | None, [] => (mkLock (Some h) [], true)
  | _, _ => (mkLock (owner k) (waiters k ++ [h]), false)
  end.

(** [asyncio.Lock.release]; the oldest waiter is woken and takes the lock
    when it is resumed. *)
Definition release (k : Lock) : Lock := mkLock None (waiters k).

(** Where a suspended [set_language_using_activity] handler stands. *)
Inductive HandlerPC :=
  | WaitLock (l : Language)      (* line 96, waiting for the lock *)
  | InActivity (l : Language).   (* line 97, inside the [async with] block *)

Inductive MainPC :=
  | Waiting                      (* line 57 *)
  | Returned (greeting : string)
  | Raised.                      (* [self.greetings[self.language]] raised KeyError *)

Record Machine := mkMachine {
  wf : Workflow;
  handlers : gmap nat HandlerPC;       (* the suspended update handlers *)
  running : option (nat * Language);   (* the handler that stands at line 114 *)
  main : MainPC
}.

Definition start : Machine := mkMachine init ∅ None Waiting.

(** What [call_greeting_service] gives: a greeting, [None], or an exception. *)
Inductive ServiceResult :=
  | Greeting (greeting : option string)
  | ServiceError.

Inductive Event :=
  | EvApprove (name : string)
  | EvSetLanguage (l : Language)
  | EvSetLanguageUsingActivity (h : nat) (l : Language)
  | EvLockGranted
  | EvGreetingService (h : nat) (r : ServiceResult)
  | EvResume
  | EvGetLanguage
  | EvRun.

(** [workflow.all_handlers_finished()]. *)
Definition all_handlers_finished (m : Machine) : bool :=
  bool_decide (handlers m = ∅) && bool_decide (running m = None).

(** A message is delivered, or a suspended coroutine resumed, only when no
    handler stands between two suspension points and [run] has not returned. *)
Definition idle (m : Machine) : bool :=
  match running m, main m with
  | None, Waiting => true
  | _, _ => false
  end.

(** Lines 91-101, up to the first suspension of the handler [h]. *)
Definition begin_update (h : nat) (l : Language) (m : Machine) : Machine :=
  if supported l (wf m)
  then mkMachine (wf m) (handlers m) (Some (h, l)) (main m)
  else
    let (k, acquired) := acquire h (lock (wf m)) in
    mkMachine (with_lock k (wf m))
              (<[h := if acquired then InActivity l else WaitLock l]> (handlers m))
              None (main m).

(** Lines 97-113, from the completion of the activity. *)
Definition end_activity (h : nat) (l : Language) (r : ServiceResult) (m : Machine)
  : Machine * Output :=
  match r with
  | Greeting (Some greeting) =>
      let w1 := with_greetings (<[l := greeting]> (greetings (wf m))) (wf m) in
      let w2 := with_lock (release (lock w1)) w1 in   (* the block is left *)
      (mkMachine w2 (delete h (handlers m)) (Some (h, l)) (main m), NoOutput)
  | Greeting None =>
      (mkMachine (with_lock (release (lock (wf m))) (wf m))
                 (delete h (handlers m)) None (main m), ApplicationError)
  | ServiceError =>
      (mkMachine (with_lock (release (lock (wf m))) (wf m))
                 (delete h (handlers m)) None (main m), ActivityError)
  end.

Definition step (ev : Event) (m : Machine) : option (Machine * Output) :=
  match ev with
  | EvApprove name =>
      if idle m
      then Some (mkMachine (approve name (wf m)) (handlers m) (running m) (main m), NoOutput)
      else None
  | EvSetLanguage l =>
      if idle m
      then let (w, out) := update_set_language l (wf m) in
           Some (mkMachine w (handlers m) (running m) (main m), out)
      else None
  | EvSetLanguageUsingActivity h l =>
      if idle m
      then match handlers m !! h with
           | None => Some (begin_update h l m, NoOutput)
           | Some _ => None   (* [h] names a new handler *)
           end
      else None
  | EvLockGranted =>
      if idle m
      then match owner (lock (wf m)), waiters (lock (wf m)) with
           | None, h :: rest =>
               match handlers m !! h with
               | Some (WaitLock l) =>
                   Some (mkMachine (with_lock (mkLock (Some h) rest) (wf m))
                                   (<[h := InActivity l]> (handlers m))
                                   None (main m), NoOutput)
               | _ => None
               end
           | _, _ => None
           end
      else None
  | EvGreetingService h r =>
      if idle m
      then match handlers m !! h with
           | Some (InActivity l) => Some (end_activity h l r m)
           | _ => None
           end
      else None
  | EvResume =>
      match running m, main m with
      | Some (h, l), Waiting =>
          (* lines 114-115 *)
          let (w, previous) := swap_language l (wf m) in
          Some (mkMachine w (handlers m) None (main m), Previous previous)
      | _, _ => None
      end
  | EvGetLanguage =>
      if idle m then Some (m, Current (language (wf m))) else None
  | EvRun =>
      if idle m
      then if approved_for_release (wf m) && all_handlers_finished m
           then match greetings (wf m) !! language (wf m) with
                | Some greeting =>
                    Some (mkMachine (wf m) (handlers m) (running m) (Returned greeting),
                          Result greeting)
                | None =>
                    Some (mkMachine (wf m) (handlers m) (running m) Raised, KeyError)
                end
           else None   (* the condition of line 58 does not hold *)
      else None
  end.

Fixpoint run_events (evs : list Event) (m : Machine) : option Machine :=
  match evs with
  | [] => Some m
  | ev :: rest =>
      match step ev m with
      | Some (m', _) => run_events rest m'
      | None => None
      end
  end.

Inductive reachable : Machine -> Prop :=
  | reach_start : reachable start
  | reach_step m ev m' out :
      reachable m -> step ev m = Some (m', out) -> reachable m'.

(** The handler [h] holds the lock. *)
Definition holds_lock (h : nat) (m : Machine) : Prop :=
  owner (lock (wf m)) = Some h.

(** What holds of the lock, of the handlers and of the current language in
    every reachable state. *)
Definition consistent (m : Machine) : Prop :=
  (forall h l, handlers m !! h = Some (InActivity l) -> holds_lock h m)
  /\ (forall h, holds_lock h m -> exists l, handlers m !! h = Some (InActivity l))
  /\ (forall h l, running m = Some (h, l) ->
        handlers m !! h = None /\ is_Some (greetings (wf m) !! l))
  /\ is_Some (greetings (wf m) !! language (wf m)).

(** A handler stands between two suspension points only while [run] waits. *)
Definition run_waits (m : Machine) : Prop :=
  running m <> None -> main m = Waiting.

End WithLanguage.

Arguments Workflow Language {_ _}.
Arguments Machine Language {_ _}.
Arguments Output Language : clear implicits.
Arguments HandlerPC Language : clear implicits.
Arguments Event Language : clear implicits.

(** Scenario B, with strings for the languages: the workflow is approved
    and an update for a language without a greeting is started. *)
Definition scenario_start : Machine string := start "CHINESE"%string "ENGLISH"%string.

Definition after (evs : list (Event string)) : Machine string :=
  default scenario_start (run_events evs scenario_start).

Definition in_flight : list (Event string) :=
  [EvApprove "alice"; EvSetLanguageUsingActivity 0 "FRENCH"%string].

Definition finished : list (Event string) :=
  in_flight ++ [EvGreetingService 0 (Greeting (Some "Bonjour, monde"%string)); EvResume].

End Greeting.

(** ** The requester (reqrespupdate/requester.py) and the states of a generation *)

Module Requester.
Import Queue.

(** The connection that [Client.connect] returns. *)
Inductive Client := Connection (address : string).

(** [RequesterOptions]; either attribute may be missing or empty. *)
Record RequesterOptions := mkOptions {
  client : option Client;
  target_workflow_id : string
}.

Inductive ValueError :=
  | ClientRequired
  | TargetWorkflowRequired.

(** [Requester.__init__]: the object, or the [ValueError] it raises. *)
Definition Requester_init (options : RequesterOptions) : ValueError + RequesterOptions :=
  match client options with
  | None => inl ClientRequired
  | Some _ =>
      if truthy (target_workflow_id options) then inr options
      else inl TargetWorkflowRequired
  end.

(** Lines 28-33 against a running workflow: before the query of attempt [n]
    the workflow takes the deliveries [schedule n].  [None] when a delivery of
    the schedule is not enabled. *)
Fixpoint poll_workflow (attempts : list nat) (schedule : nat -> list Event)
         (req_id : string) (m : Machine) : option string :=
  match attempts with
  | [] => Some EmptyString
  | n :: rest =>
      match run_events (schedule n ++ [EvQuery req_id]) m with
      | None => None
      | Some m' =>
          let response := get_response req_id (wf m') in
          if truthy response then Some response
          else poll_workflow rest schedule req_id m'
      end
  end.

(** [request_uppercase], lines 21-33; [req_id] is the identifier that
    [uuid.uuid4()] gives. *)
Definition request_uppercase (req_id text : string) (schedule : nat -> list Event)
           (m : Machine) : option string :=
  match step (EvSignal (mkRequest req_id text)) m with
  | None => None
  | Some m0 => poll_workflow (seq 0 20) schedule req_id m0
  end.

(** The deliveries that leave the answer to the request [req_id] to the
    workflow: no client writes a response for it and no other request
    carries its identifier with another input. *)
Definition undisturbed (req_id text : string) (ev : Event) : Prop :=
  match ev with
  | EvUpdate k _ => k <> req_id
  | EvSignal req => id req = req_id -> input req = text
  | _ => True
  end.

(** Whatever the workflow holds for [req_id] belongs to the request with
    input [text]. *)
Definition answers (req_id text : string) (m : Machine) : Prop :=
  (forall v, responses_map (wf m) !! req_id = Some v -> v = uppercase_activity text)
  /\ (forall req, req ∈ requests_buffer (wf m) -> id req = req_id -> input req = text)
  /\ (forall req, pc m = AtActivity req -> id req = req_id -> input req = text)
  /\ (forall params v, pc m = Continued params ->
        previous_responses params !! req_id = Some v -> v = uppercase_activity text).


(** The buffer is empty where [run] checks for compaction and where the
    generation has ended; parameters handed over carry the table. *)
Definition generation_ok (m : Machine) : Prop :=
  match pc m with
  | AtCheck => requests_buffer (wf m) = []
  | Continued params =>
      requests_buffer (wf m) = []
      /\ previous_responses params = responses_map (wf m)
  | _ => True
  end.

(** The requests of [buf] whose activity succeeds, in the order of [buf]. *)
Fixpoint successes (buf : list Request) (oks : list bool) : list Request :=
  match buf, oks with
  | req :: buf', ok :: oks' =>
      if ok then req :: successes buf' oks' else successes buf' oks'
  | _, _ => []
  end.

(** ASCII text. *)
Fixpoint ascii_only (s : string) : bool :=
  match s with
  | EmptyString => true
  | String c rest => Nat.ltb (nat_of_ascii c) 128 && ascii_only rest
  end.

Definition lowercase_letter (c : ascii) : bool :=
  Nat.leb 97 (nat_of_ascii c) && Nat.leb (nat_of_ascii c) 122.

Fixpoint has_lowercase (s : string) : bool :=
  match s with
  | EmptyString => false
  | String c rest => lowercase_letter c || has_lowercase rest
  end.

End Requester.

(** ** The steps of the greeting workflow, the listing of languages *)

Module Languages.
Import Greeting.

Section WithLanguage.

Context {Language : Type} `{Countable Language}.
Variables (CHINESE ENGLISH : Language).

(** The members of the enumeration [Language], in the order in which
    iterating over the class gives them, and the integer by which two
    members compare; both belong to the declaration in [__init__.py]. *)
Variable members : list Language.
Variable value : Language -> Z.

(** [sorted]: a stable sort by [<=]. *)
Definition by_value (a b : Language) : Prop := value a <= value b.

Definition sorted (l : list Language) : list Language :=
  merge_sort by_value l (H := fun a b => decide (value a <= value b)).

(** The query handler [get_languages]; iterating over a dictionary gives
    its keys. *)
Definition get_languages (include_unsupported : bool) (w : Workflow Language)
  : list Language :=
  if include_unsupported then sorted members
  else sorted (map_to_list (greetings w)).*1.

(** The shapes that a step of the workflow can have. *)
Inductive transition (m : Machine Language) : Machine Language -> Prop :=
  | t_approve name :
      idle m = true ->
      transition m (mkMachine (approve name (wf m)) (handlers m) (running m) (main m))
  | t_same :
      idle m = true -> transition m m
  | t_set_language l :
      idle m = true -> is_Some (greetings (wf m) !! l) ->
      transition m (mkMachine (with_language l (wf m)) (handlers m) (running m) (main m))
  | t_begin_supported h l :
      idle m = true -> handlers m !! h = None -> is_Some (greetings (wf m) !! l) ->
      transition m (mkMachine (wf m) (handlers m) (Some (h, l)) (main m))
  | t_begin_acquire h l :
      idle m = true -> handlers m !! h = None -> greetings (wf m) !! l = None ->
      owner (lock (wf m)) = None -> waiters (lock (wf m)) = [] ->
      transition m (mkMachine (with_lock (mkLock (Some h) []) (wf m))
                              (<[h := InActivity l]> (handlers m)) None (main m))
  | t_begin_wait h l :
      idle m = true -> handlers m !! h = None -> greetings (wf m) !! l = None ->
      (is_Some (owner (lock (wf m))) \/ waiters (lock (wf m)) <> []) ->
      transition m (mkMachine
                      (with_lock (mkLock (owner (lock (wf m)))
                                         (waiters (lock (wf m)) ++ [h])) (wf m))
                      (<[h := WaitLock l]> (handlers m)) None (main m))
  | t_granted h l rest :
      idle m = true -> owner (lock (wf m)) = None ->
      waiters (lock (wf m)) = h :: rest -> handlers m !! h = Some (WaitLock l) ->
      transition m (mkMachine (with_lock (mkLock (Some h) rest) (wf m))
                              (<[h := InActivity l]> (handlers m)) None (main m))
  | t_greeting h l greeting :
      idle m = true -> handlers m !! h = Some (InActivity l) ->
      transition m (mkMachine
                      (with_lock (mkLock None (waiters (lock (wf m))))
                         (with_greetings (<[l := greeting]> (greetings (wf m))) (wf m)))
                      (delete h (handlers m)) (Some (h, l)) (main m))
  | t_failed h l :
      idle m = true -> handlers m !! h = Some (InActivity l) ->
      transition m (mkMachine (with_lock (mkLock None (waiters (lock (wf m)))) (wf m))
                              (delete h (handlers m)) None (main m))
  | t_resume h l :
      running m = Some (h, l) -> main m = Waiting ->
      transition m (mkMachine (with_language l (wf m)) (handlers m) None (main m))
  | t_run result :
      idle m = true -> approved_for_release (wf m) = true ->
      handlers m = ∅ ->
      transition m (mkMachine (wf m) (handlers m) (running m) result).

(** The waiters of the lock are the handlers suspended in [acquire]. *)
Definition queue_ok (m : Machine Language) : Prop :=
  NoDup (waiters (lock (wf m)))
  /\ forall h, h ∈ waiters (lock (wf m)) <-> exists l, handlers m !! h = Some (WaitLock l).

(** The language that a suspended handler was called with. *)
Definition wanted (p : HandlerPC Language) : Language :=
  match p with
  | WaitLock l | InActivity l => l
  end.

(** The greetings of [__init__] are in the dictionary as they were, and no
    suspended handler was called with one of their languages. *)
Definition builtin_ok (m : Machine Language) : Prop :=
  (forall l v, greetings (init CHINESE ENGLISH) !! l = Some v ->
               greetings (wf m) !! l = Some v)
  /\ (forall h p, handlers m !! h = Some p ->
                  greetings (init CHINESE ENGLISH) !! wanted p = None).

End WithLanguage.

End Languages.

(** ** Properties of the request queue workflow *)

Module QueueFacts.
Import Queue.

Lemma init_responses params :
  responses_map (init params) = previous_responses params.
Proof.
  unfold init, copy; simpl. case_decide; congruence.
Qed.

Lemma start_responses params :
  responses_map (wf (start params)) = previous_responses params.
Proof. unfold start; simpl. apply init_responses. Qed.

(** One iteration of the drain loop. *)
Lemma drain_iteration m req rest ok :
  pc m = AtLoop -> requests_buffer (wf m) = req :: rest ->
  run_events [EvRun; EvActivityDone ok] m =
    Some (mkMachine (finish req ok (dequeue req rest (wf m))) AtLoop
                    (if ok then completed m ++ [req] else completed m)).
Proof.
  intros Hpc Hbuf. simpl. rewrite Hpc, Hbuf. simpl. reflexivity.
Qed.

Lemma run_events_cons ev evs m :
  run_events (ev :: evs) m =
  match step ev m with
  | Some m' => run_events evs m'
  | None => None
  end.
Proof. reflexivity. Qed.

Lemma run_events_app evs1 evs2 m :
  run_events (evs1 ++ evs2) m =
  match run_events evs1 m with
  | Some m' => run_events evs2 m'
  | None => None
  end.
Proof.
  revert m. induction evs1 as [|ev evs1 IH]; intros m; simpl; [reflexivity|].
  destruct (step ev m); [apply IH | reflexivity].
Qed.

Lemma drain_events_cons ok oks :
  drain_events (ok :: oks) = [EvRun; EvActivityDone ok] ++ drain_events oks.
Proof. reflexivity. Qed.

Lemma get_response_lookup k v w :
  responses_map w !! k = Some v -> get_response k w = v.
Proof. unfold get_response. by intros ->. Qed.

Lemma five_drained_run : run_events five_events boot = Some five_drained.
Proof. vm_compute. reflexivity. Qed.

Lemma run_events_reachable (allowed : Event -> Prop) evs :
  forall m0 m,
  Forall allowed evs -> run_events evs m0 = Some m ->
  forall origin, reachable allowed origin m0 -> reachable allowed origin m.
Proof.
  induction evs as [|ev evs IH]; intros m0 m Hall Hrun origin Hreach.
  - inversion Hrun; subst. exact Hreach.
  - inversion Hall; subst. rewrite run_events_cons in Hrun.
    destruct (step ev m0) as [m1|] eqn:Hstep; [|discriminate].
    apply (IH m1 m); [assumption | assumption |].
    eapply reach_step; eassumption.
Qed.

Lemma five_drained_reachable : reachable no_client_update boot five_drained.
Proof.
  apply (run_events_reachable no_client_update five_events boot).
  - repeat constructor.
  - exact five_drained_run.
  - constructor.
Qed.

Lemma reachable_weaken (P Q : Event -> Prop) m0 m :
  (forall ev, P ev -> Q ev) -> reachable P m0 m -> reachable Q m0 m.
Proof.
  intros HPQ. induction 1 as [|m ev m' _ IH Hev Hstep]; [constructor|].
  eapply reach_step; [exact IH | apply HPQ, Hev | exact Hstep].
Qed.

(** C2. When the compaction check hands over to a new generation, every
    entry of the response table is carried, with the same value, by the
    parameters of the new generation and by the table that the new
    generation starts with. *)
Theorem compaction_round_trip (m m' : Machine) (params : UppercaseParams) :
  step EvRun m = Some m' ->
  pc m' = Continued params ->
  (forall (k v : string),
      responses_map (wf m) !! k = Some v ->
      previous_responses params !! k = Some v
      /\ responses_map (init params) !! k = Some v)
  /\ exists m'', step EvRun m' = Some m''
       /\ pc m'' = AtWait
       /\ responses_map (wf m'') = responses_map (wf m).
Proof.
  intros Hstep Hpc.
  assert (Hparams : params = new_params (wf m)).
  { unfold step in Hstep. destruct (pc m) eqn:Hm.
    - destruct (requests_buffer (wf m)); inversion Hstep; subst; discriminate.
    - destruct (requests_buffer (wf m)); inversion Hstep; subst; discriminate.
    - discriminate.
    - destruct (should_continue (wf m)); inversion Hstep; subst; simpl in Hpc;
        [congruence | discriminate].
    - inversion Hstep; subst; discriminate. }
  subst params. split.
  - intros k v Hk. rewrite init_responses. split; exact Hk.
  - unfold step. rewrite Hpc. eexists. split; [reflexivity|].
    split; [reflexivity|]. exact (init_responses (new_params (wf m))).
Qed.

Lemma compaction_round_trip_witness :
  responses_map (init (new_params (wf five_drained))) !! "3"%string = Some "FOO2"%string.
Proof.
  apply (compaction_round_trip five_drained
           (mkMachine (wf five_drained) (Continued (new_params (wf five_drained)))
                      five_requests)
           (new_params (wf five_drained)));
    [vm_compute; reflexivity | reflexivity | vm_compute; reflexivity].
Defined.

(** In every reachable state the threshold is 5 and [pending_updates]
    counts the activity invocations that are outstanding. *)
Lemma pending_counts_outstanding (allowed : Event -> Prop) params m :
  reachable allowed (start params) m ->
  threshold_for_continue (wf m) = 5
  /\ pending_updates (wf m) = outstanding (pc m).
Proof.
  induction 1 as [|m ev m' _ [IHt IHp] _ Hstep]; [split; reflexivity|].
  unfold step in Hstep.
  destruct ev as [? | ? ? | ? | [|] |]; destruct (pc m) eqn:Hpc;
    repeat match type of Hstep with
           | context [requests_buffer (wf m)] => destruct (requests_buffer (wf m))
           | context [should_continue (wf m)] => destruct (should_continue (wf m))
           end;
    simpl in Hstep; try discriminate; inversion Hstep; subst; simpl in *;
    rewrite ?Hpc; simpl; (split; [first [assumption | reflexivity] | lia]).
Qed.

(** C3. A step of the workflow reaches [continue_as_new] only from the
    check of line 88, in a state where at least 5 requests have been counted,
    [pending_updates] is 0 and no activity invocation is outstanding. *)
Theorem compaction_only_when_idle
  (origin : UppercaseParams) (m m' : Machine) (ev : Event) (params : UppercaseParams) :
  reachable any_event (start origin) m ->
  step ev m = Some m' ->
  pc m' = Continued params ->
  pc m = AtCheck
  /\ request_count (wf m) >= 5
  /\ pending_updates (wf m) = 0
  /\ outstanding (pc m) = 0
  /\ (forall req, pc m <> AtActivity req).
Proof.
  intros Hreach Hstep Hpc.
  destruct (pending_counts_outstanding any_event origin m Hreach) as [Ht Hp].
  assert (Hcheck : pc m = AtCheck /\ should_continue (wf m) = true).
  { unfold step in Hstep.
    destruct ev; destruct (pc m) eqn:Hm;
      repeat match type of Hstep with
             | context [requests_buffer (wf m)] => destruct (requests_buffer (wf m))
             | context [should_continue (wf m)] =>
                 destruct (should_continue (wf m)) eqn:Hsc
             end;
      simpl in Hstep; try discriminate; inversion Hstep; subst; simpl in Hpc;
      try discriminate; try congruence; auto. }
  destruct Hcheck as [Hm Hsc]. unfold should_continue in Hsc.
  apply andb_prop in Hsc. destruct Hsc as [Hc Hpend].
  apply bool_decide_eq_true in Hc. apply bool_decide_eq_true in Hpend.
  rewrite Ht in Hc. rewrite Hm. repeat split; auto.
Qed.

Lemma compaction_only_when_idle_witness :
  request_count (wf five_drained) >= 5 /\ pending_updates (wf five_drained) = 0.
Proof.
  destruct (compaction_only_when_idle (mkParams EmptyString ∅) five_drained
              (mkMachine (wf five_drained) (Continued (new_params (wf five_drained)))
                         five_requests)
              EvRun (new_params (wf five_drained)))
    as (_ & Hc & Hp & _).
  - apply (reachable_weaken no_client_update); [intros; exact I|].
    exact five_drained_reachable.
  - vm_compute. reflexivity.
  - reflexivity.
  - split; [exact Hc | exact Hp].
Defined.

(** C8. When the activity of a dequeued request fails, the step that
    handles the failure leaves the response table and the buffer as they
    are, records nothing for the request, hands back the in-flight count and
    returns to the head of the drain loop, which then takes the next request
    of the buffer or, if there is none, goes on to the compaction check. *)
Theorem failed_activity_dropped (m : Machine) (req : Request) :
  pc m = AtActivity req ->
  exists m',
    step (EvActivityDone false) m = Some m'
    /\ responses_map (wf m') = responses_map (wf m)
    /\ requests_buffer (wf m') = requests_buffer (wf m)
    /\ request_count (wf m') = request_count (wf m)
    /\ pending_updates (wf m') = pending_updates (wf m) - 1
    /\ completed m' = completed m
    /\ pc m' = AtLoop
    /\ (forall next rest,
          requests_buffer (wf m) = next :: rest ->
          exists m'', step EvRun m' = Some m''
            /\ pc m'' = AtActivity next
            /\ requests_buffer (wf m'') = rest
            /\ responses_map (wf m'') = responses_map (wf m))
    /\ (requests_buffer (wf m) = [] ->
          exists m'', step EvRun m' = Some m'' /\ pc m'' = AtCheck
            /\ responses_map (wf m'') = responses_map (wf m)).
Proof.
  intros Hpc. unfold step at 1. rewrite Hpc. eexists. split; [reflexivity|].
  simpl. repeat split.
  - intros next rest Hbuf. unfold step. simpl. rewrite Hbuf.
    eexists. repeat split.
  - intros Hbuf. unfold step. simpl. rewrite Hbuf. eexists. repeat split.
Qed.

Lemma failed_activity_dropped_witness :
  exists m',
    step (EvActivityDone false)
         (mkMachine (mkWorkflow [mkRequest "2" "bar"] ∅ 1 1 5 EmptyString)
                    (AtActivity (mkRequest "1" "foo0")) []) = Some m'
    /\ responses_map (wf m') !! "1"%string = None
    /\ pc m' = AtLoop.
Proof.
  destruct (failed_activity_dropped
              (mkMachine (mkWorkflow [mkRequest "2" "bar"] ∅ 1 1 5 EmptyString)
                         (AtActivity (mkRequest "1" "foo0")) [])
              (mkRequest "1" "foo0"))
    as (m' & Hstep & Htable & _ & _ & _ & _ & Hloop & _); [reflexivity|].
  exists m'. split; [exact Hstep|]. split; [|exact Hloop].
  rewrite Htable. reflexivity.
Defined.

Lemma entries_completed_step ev m m' :
  no_client_update ev -> step ev m = Some m' ->
  entries_completed m -> entries_completed m'.
Proof.
  intros Hev Hstep [Htab Hcont]. unfold step in Hstep.
  destruct ev as [r | ? ? | ? | ok |]; [| destruct Hev | | |].
  - destruct (suspended (pc m)) eqn:Hs; inversion Hstep; subst. split; simpl.
    + exact Htab.
    + intros params Hp. rewrite Hp in Hs. discriminate.
  - destruct (suspended (pc m)); inversion Hstep; subst. split; assumption.
  - destruct (pc m) as [| | req | |] eqn:Hpc; inversion Hstep; subst. split; simpl.
    + destruct ok; simpl.
      * intros k Hk. destruct (decide (id req = k)) as [<-|Hne].
        -- exists req. split; [set_solver | reflexivity].
        -- rewrite lookup_insert_ne in Hk by assumption.
           destruct (Htab k Hk) as (r & Hin & Hid).
           exists r. split; [set_solver | assumption].
      * exact Htab.
    + intros params Hp. discriminate.
  - destruct (pc m) as [| | req | | params] eqn:Hpc.
    + destruct (requests_buffer (wf m)); inversion Hstep; subst.
      split; [exact Htab | intros ? ?; discriminate].
    + destruct (requests_buffer (wf m)); inversion Hstep; subst;
        (split; [exact Htab | intros ? ?; discriminate]).
    + discriminate.
    + destruct (should_continue (wf m)); inversion Hstep; subst; simpl.
      * split; [exact Htab|]. simpl. intros params Hp. inversion Hp. reflexivity.
      * split; [exact Htab | intros ? ?; discriminate].
    + inversion Hstep; subst. split; [|intros ? ?; discriminate].
      intros k Hk. apply Htab.
      rewrite <- (Hcont params eq_refl), <- (init_responses params). exact Hk.
Qed.

(** C9, as stated, fails: [set_response] is a public update handler, so a
    client can write an entry for an id that no request ever carried. *)
Lemma table_entry_without_request :
  ~ (forall m : Machine,
        reachable any_event boot m ->
        forall k : string,
          is_Some (responses_map (wf m) !! k) ->
          exists req, req ∈ completed m /\ id req = k).
Proof.
  intros Hclaim.
  destruct (Hclaim (mkMachine (mkWorkflow [] {["ghost"%string := "boo"%string]} 0 0 5 EmptyString)
                              AtWait [])) with (k := "ghost"%string)
    as (req & Hin & _).
  - apply (run_events_reachable any_event stray_update boot);
      [repeat constructor | vm_compute; reflexivity | constructor].
  - exists "boo"%string. vm_compute. reflexivity.
  - simpl in Hin. inversion Hin.
Qed.

(** C9, amended. In every state that the workflow started by starter.py
    reaches through [request] signals, [get_response] queries and its own
    [run] loop, over any number of generations, every id of the response
    table is the id of a request whose activity succeeded and whose result
    [run] stored. *)
Theorem table_entries_completed (m : Machine) (k : string) :
  reachable no_client_update boot m ->
  is_Some (responses_map (wf m) !! k) ->
  exists req, req ∈ completed m /\ id req = k.
Proof.
  intros Hreach. revert k.
  assert (Hinv : entries_completed m).
  { induction Hreach as [|m ev m' _ IH Hev Hstep].
    - split; [intros k [v Hk]; inversion Hk | intros ? Hp; discriminate].
    - eapply entries_completed_step; eassumption. }
  exact (proj1 Hinv).
Qed.

Lemma table_entries_completed_witness :
  exists req, req ∈ completed five_drained /\ id req = "3"%string.
Proof.
  apply (table_entries_completed five_drained "3");
    [exact five_drained_reachable | vm_compute; eauto].
Defined.

Lemma poll_empty attempts snapshot k :
  (forall n, get_response k (snapshot n) = EmptyString) ->
  poll attempts snapshot k = EmptyString.
Proof.
  intros Hall. induction attempts as [|n rest IH]; [reflexivity|].
  simpl. rewrite Hall. simpl. exact IH.
Qed.

(** C10. A request whose input is the empty string is answered by the
    empty string, which [get_response] also returns for an id without an
    entry; a caller polling as requester.py does, against states in which
    the id has no entry or has the empty string, gets the empty string after
    its 20 attempts, as if there were no result. *)
Theorem empty_response_not_observed (m : Machine) (k : string) :
  pc m = AtActivity (mkRequest k EmptyString) ->
  responses_map (wf m) !! k = None ->
  exists m',
    step (EvActivityDone true) m = Some m'
    /\ responses_map (wf m') !! k = Some EmptyString
    /\ get_response k (wf m) = EmptyString
    /\ get_response k (wf m') = EmptyString
    /\ (forall snapshot : nat -> Workflow,
          (forall n, responses_map (snapshot n) !! k = None
                     \/ responses_map (snapshot n) !! k = Some EmptyString) ->
          request_uppercase_poll snapshot k = EmptyString).
Proof.
  intros Hpc Hnone. unfold step. rewrite Hpc. eexists. split; [reflexivity|].
  assert (Hsome : responses_map
            (wf (mkMachine (finish (mkRequest k EmptyString) true (wf m)) AtLoop
                           (completed m ++ [mkRequest k EmptyString]))) !! k
          = Some EmptyString).
  { unfold finish, set_response. simpl. by rewrite lookup_insert_eq. }
  split; [exact Hsome|].
  split; [unfold get_response; by rewrite Hnone|].
  split; [by apply get_response_lookup|].
  intros snapshot Hsnap. apply poll_empty. intros n. unfold get_response.
  destruct (Hsnap n) as [-> | ->]; reflexivity.
Qed.

Lemma empty_response_not_observed_witness :
  exists m',
    step (EvActivityDone true)
         (mkMachine (mkWorkflow [] ∅ 1 1 5 EmptyString)
                    (AtActivity (mkRequest "7" EmptyString)) []) = Some m'
    /\ get_response "7" (wf m') = EmptyString
    /\ request_uppercase_poll (fun _ => wf m') "7" = EmptyString.
Proof.
  destruct (empty_response_not_observed
              (mkMachine (mkWorkflow [] ∅ 1 1 5 EmptyString)
                         (AtActivity (mkRequest "7" EmptyString)) [])
              "7"%string)
    as (m' & Hstep & Hsome & _ & Hget & Hpoll); [reflexivity | reflexivity |].
  exists m'. split; [exact Hstep|]. split; [exact Hget|].
  apply Hpoll. intros _. right. exact Hsome.
Defined.

End QueueFacts.

(** ** Properties of the greeting workflow *)

Module GreetingFacts.
Import Greeting.

Section WithLanguage.

Context {Language : Type} `{Countable Language}.
Variables (CHINESE ENGLISH : Language).

Ltac split_consistent :=
  unfold consistent, holds_lock in *; simpl;
  refine (conj _ (conj _ (conj _ _))).

Lemma idle_running (m : Machine Language) :
  idle m = true -> running m = None /\ main m = Waiting.
Proof.
  unfold idle. destruct (running m); [discriminate|].
  destruct (main m); [auto | discriminate | discriminate].
Qed.

Lemma consistent_start : consistent (start CHINESE ENGLISH).
Proof.
  split_consistent.
  - intros h l Hh. rewrite lookup_empty in Hh. discriminate.
  - intros h Hh. discriminate.
  - discriminate.
  - rewrite lookup_insert_eq. eauto.
Qed.

(** Taking the lock for [h], which was not inside the block before. *)
Lemma consistent_take (m : Machine Language) (h : nat) (l : Language) (rest : list nat) :
  consistent m -> running m = None ->
  owner (lock (wf m)) = None ->
  consistent (mkMachine (with_lock (mkLock (Some h) rest) (wf m))
                        (<[h := InActivity l]> (handlers m)) None (main m)).
Proof.
  intros (Hact & Hown & Hrun & Hlang) Hidle Hfree.
  split_consistent.
  - intros h0 l0 Hh0. destruct (decide (h = h0)) as [->|Hne]; [reflexivity|].
    rewrite lookup_insert_ne in Hh0 by assumption.
    specialize (Hact h0 l0 Hh0). congruence.
  - intros h0 Hh0. inversion Hh0; subst. exists l. by rewrite lookup_insert_eq.
  - discriminate.
  - exact Hlang.
Qed.

(** Leaving the block. *)
Lemma consistent_leave (m : Machine Language) (h : nat) (l : Language)
      (g : gmap Language string) (next : option (nat * Language)) :
  consistent m -> handlers m !! h = Some (InActivity l) ->
  is_Some (g !! language (wf m)) ->
  (forall l', next = Some (h, l') -> is_Some (g !! l')) ->
  (next = None \/ exists l', next = Some (h, l')) ->
  consistent (mkMachine (with_lock (release (lock (wf m))) (with_greetings g (wf m)))
                        (delete h (handlers m)) next (main m)).
Proof.
  intros (Hact & Hown & Hrun & Hlang) Hh Hg Hnext Hshape.
  split_consistent.
  - intros h0 l0 Hh0. exfalso.
    destruct (decide (h = h0)) as [->|Hne].
    + rewrite lookup_delete_eq in Hh0. discriminate.
    + rewrite lookup_delete_ne in Hh0 by assumption.
      pose proof (Hact h0 l0 Hh0). pose proof (Hact h l Hh). congruence.
  - intros h0 Hh0. discriminate.
  - intros h0 l0 Heq. destruct Hshape as [-> | [l' ->]]; [discriminate|].
    inversion Heq; subst. split; [apply lookup_delete_eq | by apply Hnext].
  - exact Hg.
Qed.

Lemma consistent_step (ev : Event Language) (m m' : Machine Language) (out : Output Language) :
  step ev m = Some (m', out) -> consistent m -> consistent m'.
Proof.
  intros Hstep Hc. pose proof Hc as (Hact & Hown & Hrun & Hlang).
  unfold step in Hstep.
  destruct ev as [name | l | h l | | h r | | |].
  - destruct (idle m); inversion Hstep; subst. exact Hc.
  - destruct (idle m); [|discriminate].
    unfold update_set_language, validate_language, supported in Hstep.
    case_bool_decide; simpl in Hstep; inversion Hstep; subst.
    + split_consistent; auto.
    + destruct m; exact Hc.
  - destruct (idle m) eqn:Hidle; [|discriminate].
    apply idle_running in Hidle. destruct Hidle as [Hnone _].
    destruct (handlers m !! h) eqn:Hh; inversion Hstep; subst.
    unfold begin_update, supported. case_bool_decide as Hsup.
    + split_consistent; auto.
      intros h0 l0 Heq. inversion Heq; subst. split; assumption.
    + unfold acquire.
      destruct (owner (lock (wf m))) as [h1|] eqn:Ho;
        [|destruct (waiters (lock (wf m))) as [|h2 rest] eqn:Hw].
      * split_consistent.
        -- intros h0 l0 Hh0. destruct (decide (h = h0)) as [->|Hne].
           ++ rewrite lookup_insert_eq in Hh0. discriminate.
           ++ rewrite lookup_insert_ne in Hh0 by assumption.
              rewrite <- Ho. eapply Hact; eassumption.
        -- intros h0 Hh0. rewrite <- Ho in Hh0. destruct (Hown h0 Hh0) as [l0 Hl0].
           exists l0. rewrite lookup_insert_ne; [assumption | congruence].
        -- discriminate.
        -- exact Hlang.
      * apply consistent_take; assumption.
      * split_consistent.
        -- intros h0 l0 Hh0. destruct (decide (h = h0)) as [->|Hne].
           ++ rewrite lookup_insert_eq in Hh0. discriminate.
           ++ rewrite lookup_insert_ne in Hh0 by assumption.
              rewrite <- Ho. eapply Hact; eassumption.
        -- intros h0 Hh0. discriminate.
        -- discriminate.
        -- exact Hlang.
  - destruct (idle m) eqn:Hidle; [|discriminate].
    apply idle_running in Hidle. destruct Hidle as [Hnone _].
    destruct (owner (lock (wf m))) eqn:Ho; [discriminate|].
    destruct (waiters (lock (wf m))) as [|h rest]; [discriminate|].
    destruct (handlers m !! h) as [[l|l]|]; inversion Hstep; subst.
    apply consistent_take; assumption.
  - destruct (idle m) eqn:Hidle; [|discriminate].
    destruct (handlers m !! h) as [[l|l]|] eqn:Hh; inversion Hstep as [Hend]; subst.
    unfold end_activity in Hend. destruct r as [[greeting|]|]; inversion Hend; subst.
    + apply (consistent_leave m h l _ (Some (h, l))); auto.
      * destruct (decide (l = language (wf m))) as [->|Hne].
        -- rewrite lookup_insert_eq. eauto.
        -- by rewrite lookup_insert_ne.
      * intros l' Heq. inversion Heq; subst. rewrite lookup_insert_eq. eauto.
      * right. eauto.
    + change (with_lock (release (lock (wf m))) (wf m))
        with (with_lock (release (lock (wf m))) (with_greetings (greetings (wf m)) (wf m))).
      apply (consistent_leave m h l _ None); auto. discriminate.
    + change (with_lock (release (lock (wf m))) (wf m))
        with (with_lock (release (lock (wf m))) (with_greetings (greetings (wf m)) (wf m))).
      apply (consistent_leave m h l _ None); auto. discriminate.
  - destruct (running m) as [[h l]|] eqn:Hr; [|discriminate].
    destruct (main m); inversion Hstep; subst.
    split_consistent; auto; [discriminate|].
    apply (Hrun h l). reflexivity.
  - destruct (idle m); inversion Hstep; subst. exact Hc.
  - destruct (idle m); [|discriminate].
    destruct (approved_for_release (wf m) && all_handlers_finished m); [|discriminate].
    destruct (greetings (wf m) !! language (wf m)); inversion Hstep; subst; exact Hc.
Qed.

Lemma reachable_consistent (m : Machine Language) :
  reachable CHINESE ENGLISH m -> consistent m.
Proof.
  induction 1 as [|m ev m' out _ IH Hstep]; [apply consistent_start|].
  eapply consistent_step; eassumption.
Qed.

Lemma run_waits_step (ev : Event Language) (m m' : Machine Language) (out : Output Language) :
  step ev m = Some (m', out) -> run_waits m -> run_waits m'.
Proof.
  unfold run_waits, step. intros Hstep Hw.
  destruct ev as [name | l | h l | | h r | | |];
    try (destruct (idle m) eqn:Hidle; [apply idle_running in Hidle as [Hr Hm] | discriminate]).
  - inversion Hstep; subst. simpl. auto.
  - destruct (update_set_language l (wf m)); inversion Hstep; subst. simpl. auto.
  - destruct (handlers m !! h); inversion Hstep; subst.
    unfold begin_update. destruct (supported l (wf m)); [auto|].
    destruct (acquire h (lock (wf m))). auto.
  - destruct (owner (lock (wf m))); [discriminate|].
    destruct (waiters (lock (wf m))) as [|h0 rest]; [discriminate|].
    destruct (handlers m !! h0) as [[l0|l0]|]; inversion Hstep; subst. auto.
  - destruct (handlers m !! h) as [[l|l]|]; inversion Hstep as [Hend].
    unfold end_activity in Hend. destruct r as [[g|]|]; inversion Hend; subst; auto.
  - destruct (running m) as [[h l]|]; [|discriminate].
    destruct (main m); inversion Hstep; subst. simpl. congruence.
  - inversion Hstep; subst. auto.
  - destruct (approved_for_release (wf m) && all_handlers_finished m); [|discriminate].
    destruct (greetings (wf m) !! language (wf m)); inversion Hstep; subst; simpl; congruence.
Qed.

Lemma reachable_run_waits (m : Machine Language) :
  reachable CHINESE ENGLISH m -> run_waits m.
Proof.
  induction 1 as [|m ev m' out _ IH Hstep]; [intros Hr; reflexivity|].
  eapply run_waits_step; eassumption.
Qed.

Lemma greeting_events_reachable (evs : list (Event Language)) :
  forall m m' : Machine Language,
  run_events evs m = Some m' ->
  reachable CHINESE ENGLISH m -> reachable CHINESE ENGLISH m'.
Proof.
  induction evs as [|ev evs IH]; intros m m' Hrun Hreach; simpl in Hrun.
  - inversion Hrun; subst. exact Hreach.
  - destruct (step ev m) as [[m1 out]|] eqn:Hstep; [|discriminate].
    apply (IH m1 m' Hrun). eapply reach_step; eassumption.
Qed.

(** Only [run] itself, resumed while no handler is in flight, sets [main]. *)
Lemma step_main (ev : Event Language) (m m' : Machine Language) (out : Output Language) :
  step ev m = Some (m', out) -> ev <> EvRun -> main m' = main m.
Proof.
  unfold step. intros Hstep Hev.
  destruct ev as [name | l | h l | | h r | | |]; [| | | | | | |congruence];
    try (destruct (idle m); [|discriminate]).
  - inversion Hstep; subst. reflexivity.
  - destruct (update_set_language l (wf m)); inversion Hstep; subst. reflexivity.
  - destruct (handlers m !! h); inversion Hstep; subst.
    unfold begin_update. destruct (supported l (wf m)); [reflexivity|].
    destruct (acquire h (lock (wf m))). reflexivity.
  - destruct (owner (lock (wf m))); [discriminate|].
    destruct (waiters (lock (wf m))) as [|h0 rest]; [discriminate|].
    destruct (handlers m !! h0) as [[l0|l0]|]; inversion Hstep; subst. reflexivity.
  - destruct (handlers m !! h) as [[l|l]|]; inversion Hstep as [Hend].
    unfold end_activity in Hend. destruct r as [[g|]|]; inversion Hend; subst; reflexivity.
  - destruct (running m) as [[h l]|]; [|discriminate].
    destruct (main m); inversion Hstep; subst. reflexivity.
  - inversion Hstep; subst. reflexivity.
Qed.

(** C4. A step makes [run] return only if it is the resumption of [run]
    in a state where the workflow is approved and no update handler is in
    flight, neither suspended nor about to swap the language; what [run]
    returns is the greeting of the current language. *)
Theorem result_only_when_released
  (m m' : Machine Language) (ev : Event Language) (out : Output Language)
  (greeting : string) :
  step ev m = Some (m', out) ->
  main m = Waiting ->
  main m' = Returned greeting ->
  ev = EvRun
  /\ approved_for_release (wf m) = true
  /\ all_handlers_finished m = true
  /\ handlers m = ∅
  /\ running m = None
  /\ greetings (wf m) !! language (wf m) = Some greeting
  /\ out = Result greeting.
Proof.
  intros Hstep Hwait Hret.
  assert (Hev : ev = EvRun).
  { destruct ev; try reflexivity; exfalso;
      rewrite (step_main _ m m' out Hstep) in Hret by discriminate;
      rewrite Hwait in Hret; discriminate. }
  subst ev. unfold step in Hstep.
  destruct (idle m); [|discriminate].
  destruct (approved_for_release (wf m)) eqn:Happ; [|discriminate].
  destruct (all_handlers_finished m) eqn:Hfin; [|discriminate]. simpl in Hstep.
  pose proof Hfin as Hfin'. unfold all_handlers_finished in Hfin'.
  apply andb_prop in Hfin' as [Hh Hr].
  apply bool_decide_eq_true in Hh. apply bool_decide_eq_true in Hr.
  destruct (greetings (wf m) !! language (wf m)) as [g|];
    inversion Hstep; subst; simpl in Hret; inversion Hret; subst.
  repeat split; auto.
Qed.

(** C5. A [set_language] update for a language without a greeting is
    turned down by the validator and leaves the whole state as it is; for a
    language with a greeting the update makes it the current language,
    leaves the dictionary alone and returns the previous language. *)
Theorem set_language_validated (m : Machine Language) (l : Language) :
  idle m = true ->
  (greetings (wf m) !! l = None ->
     validate_language l (wf m) = false
     /\ step (EvSetLanguage l) m = Some (m, Rejected))
  /\ (is_Some (greetings (wf m) !! l) ->
        validate_language l (wf m) = true
        /\ step (EvSetLanguage l) m =
             Some (mkMachine (with_language l (wf m)) (handlers m) (running m) (main m),
                   Previous (language (wf m)))
        /\ language (with_language l (wf m)) = l
        /\ greetings (with_language l (wf m)) = greetings (wf m)).
Proof.
  intros Hidle. unfold step, update_set_language, validate_language, supported.
  rewrite Hidle. split.
  - intros Hnone. rewrite bool_decide_eq_false_2.
    + split; [reflexivity|]. destruct m; reflexivity.
    + rewrite Hnone. intros [g Hg]. discriminate.
  - intros Hsome. rewrite bool_decide_eq_true_2 by assumption.
    repeat split.
Qed.

(** The dictionary changes only when a greeting service call of a handler
    inside the block returns a greeting. *)
Lemma greetings_change (ev : Event Language) (m m' : Machine Language) (out : Output Language) :
  step ev m = Some (m', out) ->
  greetings (wf m') <> greetings (wf m) ->
  exists h l g,
    ev = EvGreetingService h (Greeting (Some g))
    /\ handlers m !! h = Some (InActivity l)
    /\ greetings (wf m') = <[l := g]> (greetings (wf m)).
Proof.
  unfold step. intros Hstep Hneq.
  destruct ev as [name | l | h l | | h r | | |];
    try (destruct (idle m); [|discriminate]).
  - inversion Hstep; subst. contradiction.
  - unfold update_set_language in Hstep.
    destruct (validate_language l (wf m)); inversion Hstep; subst; contradiction.
  - destruct (handlers m !! h); inversion Hstep; subst.
    exfalso. apply Hneq. unfold begin_update.
    destruct (supported l (wf m)); [reflexivity|].
    destruct (acquire h (lock (wf m))). reflexivity.
  - destruct (owner (lock (wf m))); [discriminate|].
    destruct (waiters (lock (wf m))) as [|h0 rest]; [discriminate|].
    destruct (handlers m !! h0) as [[l0|l0]|]; inversion Hstep; subst. contradiction.
  - destruct (handlers m !! h) as [[l|l]|] eqn:Hh; inversion Hstep as [Hend].
    unfold end_activity in Hend.
    destruct r as [[g|]|]; inversion Hend; subst; try contradiction.
    exists h, l, g. repeat split. exact Hh.
  - destruct (running m) as [[h l]|]; [|discriminate].
    destruct (main m); inversion Hstep; subst. contradiction.
  - inversion Hstep; subst. contradiction.
  - destruct (approved_for_release (wf m) && all_handlers_finished m); [|discriminate].
    destruct (greetings (wf m) !! language (wf m)); inversion Hstep; subst; contradiction.
Qed.

(** C6. A handler of [set_language_using_activity] that waits for the
    greeting service holds the lock; when the service gives [None] the update
    ends with the application error, the lock is free again, and neither the
    dictionary nor the current language has changed.  No delivery changes
    the dictionary but a greeting that the service returns to such a handler. *)
Theorem absent_greeting_fails_update (m : Machine Language) (h : nat) (l : Language) :
  reachable CHINESE ENGLISH m ->
  idle m = true ->
  handlers m !! h = Some (InActivity l) ->
  holds_lock h m
  /\ (exists m',
        step (EvGreetingService h (Greeting None)) m = Some (m', ApplicationError)
        /\ greetings (wf m') = greetings (wf m)
        /\ language (wf m') = language (wf m)
        /\ owner (lock (wf m')) = None
        /\ handlers m' !! h = None
        /\ running m' = None)
  /\ (forall (ev : Event Language) (m' : Machine Language) (out : Output Language),
        step ev m = Some (m', out) ->
        greetings (wf m') <> greetings (wf m) ->
        exists h' l' g,
          ev = EvGreetingService h' (Greeting (Some g))
          /\ handlers m !! h' = Some (InActivity l')
          /\ greetings (wf m') = <[l' := g]> (greetings (wf m))).
Proof.
  intros Hreach Hidle Hh.
  destruct (reachable_consistent m Hreach) as (Hact & _).
  split; [exact (Hact h l Hh)|]. split.
  - unfold step. rewrite Hidle, Hh. eexists. split; [reflexivity|].
    simpl. repeat split. apply lookup_delete_eq.
  - intros ev m' out. apply greetings_change.
Qed.

(** C7, amended. The lock is held by a handler for as long as its greeting
    service call is outstanding, and the greeting is put into the dictionary
    by the step that starts with the lock held and ends by releasing it; the
    current language is swapped by the next step of the same handler, which
    starts with the lock not held by it, and no other delivery comes between
    the two. *)
Theorem guard_covers_call_and_insertion (m : Machine Language) (h : nat) (l : Language) :
  reachable CHINESE ENGLISH m ->
  (handlers m !! h = Some (InActivity l) ->
     holds_lock h m
     /\ forall (g : string) (m1 : Machine Language) (out : Output Language),
          step (EvGreetingService h (Greeting (Some g))) m = Some (m1, out) ->
          greetings (wf m1) = <[l := g]> (greetings (wf m))
          /\ language (wf m1) = language (wf m)
          /\ owner (lock (wf m1)) = None
          /\ running m1 = Some (h, l))
  /\ (running m = Some (h, l) ->
        ~ holds_lock h m
        /\ step EvResume m =
             Some (mkMachine (with_language l (wf m)) (handlers m) None (main m),
                   Previous (language (wf m)))
        /\ forall ev : Event Language, ev <> EvResume -> step ev m = None).
Proof.
  intros Hreach.
  destruct (reachable_consistent m Hreach) as (Hact & Hown & Hrun & _).
  pose proof (reachable_run_waits m Hreach) as Hwait.
  split.
  - intros Hh. split; [exact (Hact h l Hh)|].
    intros g m1 out Hstep. unfold step in Hstep. rewrite Hh in Hstep.
    destruct (idle m); inversion Hstep; subst. simpl. repeat split.
  - intros Hr. split; [|split].
    + intros Hheld. destruct (Hown h Hheld) as [l0 Hl0].
      destruct (Hrun h l Hr) as [Hnone _]. congruence.
    + assert (Hm : main m = Waiting) by (apply Hwait; congruence).
      unfold step. rewrite Hr, Hm. reflexivity.
    + intros ev Hev. unfold step, idle. rewrite Hr.
      destruct ev; try reflexivity. congruence.
Qed.

End WithLanguage.

Lemma result_only_when_released_witness :
  step EvRun (after in_flight) = None
  /\ approved_for_release (wf (after finished)) = true
  /\ handlers (after finished) = ∅
  /\ greetings (wf (after finished)) !! language (wf (after finished))
     = Some "Bonjour, monde"%string.
Proof.
  split; [vm_compute; reflexivity|].
  destruct (result_only_when_released
              (after finished)
              (mkMachine (wf (after finished)) (handlers (after finished))
                         (running (after finished)) (Returned "Bonjour, monde"))
              EvRun (Result "Bonjour, monde") "Bonjour, monde")
    as (_ & Happ & _ & Hh & _ & Hg & _);
    [vm_compute; reflexivity | reflexivity | reflexivity |].
  split; [exact Happ|]. split; [exact Hh | exact Hg].
Defined.

Lemma set_language_validated_witness :
  step (EvSetLanguage "FRENCH"%string) scenario_start = Some (scenario_start, Rejected)
  /\ step (EvSetLanguage "CHINESE"%string) scenario_start
     = Some (mkMachine (with_language "CHINESE"%string (wf scenario_start)) ∅ None Waiting,
             Previous "ENGLISH"%string).
Proof.
  destruct (set_language_validated scenario_start "FRENCH"%string) as [Hreject _];
    [reflexivity|].
  destruct (set_language_validated scenario_start "CHINESE"%string) as [_ Haccept];
    [reflexivity|].
  split.
  - apply Hreject. vm_compute. reflexivity.
  - apply Haccept. exists "你好，世界"%string. vm_compute. reflexivity.
Defined.

Lemma in_flight_reachable :
  reachable "CHINESE"%string "ENGLISH"%string (after in_flight).
Proof.
  apply (greeting_events_reachable "CHINESE"%string "ENGLISH"%string in_flight scenario_start);
    [vm_compute; reflexivity | constructor].
Qed.

Lemma absent_greeting_fails_update_witness :
  exists m',
    step (EvGreetingService 0 (Greeting None)) (after in_flight) = Some (m', ApplicationError)
    /\ greetings (wf m') = greetings (wf (after in_flight))
    /\ language (wf m') = "ENGLISH"%string
    /\ owner (lock (wf m')) = None.
Proof.
  destruct (absent_greeting_fails_update "CHINESE"%string "ENGLISH"%string
              (after in_flight) 0%nat "FRENCH"%string)
    as (_ & (m' & Hstep & Hg & Hl & Ho & _) & _);
    [exact in_flight_reachable | reflexivity | vm_compute; reflexivity |].
  exists m'. split; [exact Hstep|]. split; [exact Hg|]. split; [|exact Ho].
  rewrite Hl. reflexivity.
Defined.

(** C7, as stated, fails: line 114 is outside the [async with] block, so
    when the handler stands at the swap, after the greeting has been put into
    the dictionary, the lock has already been released. *)
Lemma swap_after_release :
  ~ (forall (m m1 : Machine string) (h : nat) (l g : string) (out : Output string),
        reachable "CHINESE"%string "ENGLISH"%string m ->
        handlers m !! h = Some (InActivity l) ->
        step (EvGreetingService h (Greeting (Some g))) m = Some (m1, out) ->
        running m1 = Some (h, l) /\ holds_lock h m1).
Proof.
  intros Hclaim.
  destruct (Hclaim (after in_flight)
                   (after (in_flight
                           ++ [EvGreetingService 0 (Greeting (Some "Bonjour, monde"%string))]))
                   0%nat "FRENCH"%string "Bonjour, monde"%string NoOutput)
    as [_ Hheld];
    [exact in_flight_reachable | vm_compute; reflexivity | vm_compute; reflexivity |].
  vm_compute in Hheld. discriminate.
Qed.

Lemma guard_covers_call_and_insertion_witness :
  holds_lock 0 (after in_flight)
  /\ ~ holds_lock 0 (after (in_flight
                            ++ [EvGreetingService 0 (Greeting (Some "Bonjour, monde"%string))])).
Proof.
  split.
  - apply (guard_covers_call_and_insertion "CHINESE"%string "ENGLISH"%string
             (after in_flight) 0%nat "FRENCH"%string);
      [exact in_flight_reachable | vm_compute; reflexivity].
  - apply (guard_covers_call_and_insertion "CHINESE"%string "ENGLISH"%string
             (after (in_flight
                     ++ [EvGreetingService 0 (Greeting (Some "Bonjour, monde"%string))]))
             0%nat "FRENCH"%string).
    + apply (greeting_events_reachable "CHINESE"%string "ENGLISH"%string
               (in_flight ++ [EvGreetingService 0 (Greeting (Some "Bonjour, monde"%string))])
               scenario_start);
        [vm_compute; reflexivity | constructor].
    + vm_compute. reflexivity.
Defined.

End GreetingFacts.

(** ** Further properties of the request queue workflow and of the requester *)

Module QueueLaws.
Import Queue Requester QueueFacts.

Ltac step_cases Hstep m :=
  unfold step in Hstep;
  repeat match type of Hstep with
         | context [suspended (pc m)] => destruct (pc m) eqn:?; simpl in Hstep
         | context [match pc m with _ => _ end] => destruct (pc m) eqn:?; simpl in Hstep
         | context [requests_buffer (wf m)] =>
             destruct (requests_buffer (wf m)) eqn:?; simpl in Hstep
         | context [should_continue (wf m)] =>
             destruct (should_continue (wf m)) eqn:?; simpl in Hstep
         end;
  try discriminate; inversion Hstep; subst; clear Hstep.

Lemma generation_ok_step ev m m' :
  step ev m = Some m' -> generation_ok m -> generation_ok m'.
Proof.
  intros Hstep Hok. unfold generation_ok in *.
  destruct ev as [req | k r | k | ok |]; step_cases Hstep m; simpl; auto.
  - rewrite Heqp. exact I.
  - rewrite Heqp. exact I.
Qed.

Lemma reachable_generation_ok allowed params m :
  reachable allowed (start params) m -> generation_ok m.
Proof.
  induction 1 as [|m ev m' _ IH _ Hstep]; [exact I|].
  eapply generation_ok_step; eassumption.
Qed.

Lemma count_nonnegative allowed params m :
  reachable allowed (start params) m -> 0 <= request_count (wf m).
Proof.
  induction 1 as [|m ev m' _ IH _ Hstep]; [simpl; lia|].
  destruct ev as [req | k r | k | [|] |]; step_cases Hstep m; simpl; lia.
Qed.

Lemma five_drained_any : reachable any_event boot five_drained.
Proof.
  apply (reachable_weaken no_client_update); [intros; exact I|].
  exact five_drained_reachable.
Qed.

(** X1. When a generation ends by compaction its buffer is empty: every
    request that was enqueued in the generation has been taken out of the
    buffer, so the fresh buffer of the next generation loses none. *)
Theorem no_request_lost_by_compaction
  (origin : UppercaseParams) (m m' : Machine) (ev : Event) (params : UppercaseParams) :
  reachable any_event (start origin) m ->
  step ev m = Some m' ->
  pc m' = Continued params ->
  requests_buffer (wf m) = [] /\ requests_buffer (wf m') = [].
Proof.
  intros Hreach Hstep Hpc.
  assert (Hok' : generation_ok m').
  { eapply generation_ok_step; [exact Hstep|].
    eapply reachable_generation_ok; exact Hreach. }
  unfold generation_ok in Hok'. rewrite Hpc in Hok'. destruct Hok' as [Hbuf' _].
  split; [|exact Hbuf'].
  destruct ev as [req | k r | k | ok |]; step_cases Hstep m; simpl in *;
    try discriminate; try congruence.
Qed.

Lemma no_request_lost_by_compaction_witness :
  requests_buffer (wf five_drained) = [].
Proof.
  apply (no_request_lost_by_compaction (mkParams EmptyString ∅) five_drained
           (mkMachine (wf five_drained) (Continued (new_params (wf five_drained)))
                      five_requests)
           EvRun (new_params (wf five_drained)));
    [exact five_drained_any | vm_compute; reflexivity | reflexivity].
Defined.

(** X2. At the compaction check the test on [pending_updates] never
    decides: the generation is continued as new exactly when at least 5
    requests have been counted, and otherwise [run] goes back to waiting. *)
Theorem compaction_fires_at_threshold (origin : UppercaseParams) (m : Machine) :
  reachable any_event (start origin) m ->
  pc m = AtCheck ->
  (request_count (wf m) >= 5 ->
     step EvRun m = Some (mkMachine (wf m) (Continued (new_params (wf m))) (completed m)))
  /\ (request_count (wf m) < 5 ->
        step EvRun m = Some (mkMachine (wf m) AtWait (completed m))).
Proof.
  intros Hreach Hpc.
  destruct (pending_counts_outstanding any_event origin m Hreach) as [Ht Hp].
  rewrite Hpc in Hp. simpl in Hp.
  unfold step, should_continue. rewrite Hpc, Ht, Hp. split; intros Hc.
  - rewrite bool_decide_eq_true_2 by assumption. reflexivity.
  - rewrite bool_decide_eq_false_2 by lia. reflexivity.
Qed.

Lemma compaction_fires_at_threshold_witness :
  step EvRun five_drained
  = Some (mkMachine (wf five_drained) (Continued (new_params (wf five_drained)))
                    (completed five_drained)).
Proof.
  apply (compaction_fires_at_threshold (mkParams EmptyString ∅) five_drained);
    [exact five_drained_any | reflexivity | vm_compute; discriminate].
Defined.

(** X3. A drain without interleaving counts every request it takes from
    the buffer, whether its activity succeeds or fails; it leaves
    [pending_updates] as it found it, and it completes the successful
    requests in the order of the buffer. *)
Theorem drain_counts_every_request (oks : list bool) :
  forall m : Machine,
  pc m = AtLoop ->
  length oks = length (requests_buffer (wf m)) ->
  exists m',
    run_events (drain_events oks) m = Some m'
    /\ request_count (wf m') = request_count (wf m) + Z.of_nat (length oks)
    /\ pending_updates (wf m') = pending_updates (wf m)
    /\ completed m' = completed m ++ successes (requests_buffer (wf m)) oks
    /\ requests_buffer (wf m') = [].
Proof.
  induction oks as [|ok oks IH]; intros m Hpc Hlen.
  - destruct (requests_buffer (wf m)) eqn:Hbuf; [|discriminate].
    exists m. simpl. rewrite app_nil_r. repeat split; auto. lia.
  - destruct (requests_buffer (wf m)) as [|req rest] eqn:Hbuf; [discriminate|].
    rewrite drain_events_cons, run_events_app,
      (drain_iteration m req rest ok Hpc Hbuf).
    set (m1 := mkMachine _ _ _).
    assert (Hbuf1 : requests_buffer (wf m1) = rest)
      by (subst m1; destruct ok; reflexivity).
    destruct (IH m1) as (m' & Hrun & Hcount & Hpend & Hdone & Hempty);
      [reflexivity | rewrite Hbuf1; simpl in Hlen; lia |].
    exists m'. split; [exact Hrun|].
    rewrite Hcount, Hpend, Hdone, Hbuf1.
    repeat split; [| | | exact Hempty].
    + subst m1. destruct ok; simpl; lia.
    + subst m1. destruct ok; simpl; lia.
    + subst m1. destruct ok; simpl; [|reflexivity]. by rewrite <- app_assoc.
Qed.

Lemma drain_counts_every_request_witness :
  exists m',
    run_events (drain_events [false; true])
      (mkMachine (mkWorkflow [mkRequest "1" "a"; mkRequest "2" "b"] ∅ 3 0 5 EmptyString)
                 AtLoop []) = Some m'
    /\ request_count (wf m') = 5
    /\ completed m' = [mkRequest "2" "b"].
Proof.
  destruct (drain_counts_every_request [false; true]
              (mkMachine (mkWorkflow [mkRequest "1" "a"; mkRequest "2" "b"] ∅ 3 0 5 EmptyString)
                         AtLoop []))
    as (m' & Hrun & Hcount & _ & Hdone & _); [reflexivity | reflexivity |].
  exists m'. split; [exact Hrun|]. split; [exact Hcount | exact Hdone].
Defined.

(** X4. In every reachable state [pending_updates] is 0 or 1, it is 1
    exactly while the activity of a dequeued request is outstanding, and
    [request_count] is not negative. *)
Theorem pending_is_zero_or_one (origin : UppercaseParams) (m : Machine) :
  reachable any_event (start origin) m ->
  (pending_updates (wf m) = 0 \/ pending_updates (wf m) = 1)
  /\ (pending_updates (wf m) = 1 <-> exists req, pc m = AtActivity req)
  /\ 0 <= request_count (wf m).
Proof.
  intros Hreach.
  destruct (pending_counts_outstanding any_event origin m Hreach) as [_ Hp].
  pose proof (count_nonnegative any_event origin m Hreach) as Hc.
  rewrite Hp. destruct (pc m) as [| | req | |]; simpl;
    (split; [auto|]; split; [|exact Hc]; split;
     [intros Heq; try discriminate; eauto | intros [r Hr]; try discriminate; reflexivity]).
Qed.

Lemma pending_is_zero_or_one_witness :
  pending_updates (wf five_drained) = 0 \/ pending_updates (wf five_drained) = 1.
Proof.
  apply (pending_is_zero_or_one (mkParams EmptyString ∅) five_drained).
  exact five_drained_any.
Defined.

(** X5. No delivery removes a key from the response table, not even the
    hand-over to the next generation. *)
Theorem table_keys_never_removed
  (origin : UppercaseParams) (m m' : Machine) (ev : Event) (k : string) :
  reachable any_event (start origin) m ->
  step ev m = Some m' ->
  is_Some (responses_map (wf m) !! k) ->
  is_Some (responses_map (wf m') !! k).
Proof.
  intros Hreach Hstep Hk.
  pose proof (reachable_generation_ok any_event origin m Hreach) as Hok.
  unfold generation_ok in Hok.
  destruct ev as [req | k0 r | k0 | [|] |]; step_cases Hstep m; simpl; auto;
    try (rewrite lookup_insert; case_decide; [eauto | assumption]).
  destruct Hok as [_ Hcarry].
  change (is_Some (responses_map (init params) !! k)).
  rewrite init_responses, Hcarry. exact Hk.
Qed.

Lemma table_keys_never_removed_witness :
  is_Some (responses_map
             (wf (mkMachine (wf five_drained)
                            (Continued (new_params (wf five_drained))) five_requests))
           !! "2"%string).
Proof.
  apply (table_keys_never_removed (mkParams EmptyString ∅) five_drained _ EvRun "2"%string);
    [exact five_drained_any | vm_compute; reflexivity | vm_compute; eauto].
Defined.

(** X6. A [set_response] update is read back by [get_response] under its
    id, leaves every other id, the buffer, the counters and [run] as they
    are, and a second update for the same id replaces the first. *)
Theorem client_update_round_trip (m : Machine) (k r1 r2 : string) :
  suspended (pc m) = true ->
  exists m1 m2,
    step (EvUpdate k r1) m = Some m1
    /\ get_response k (wf m1) = r1
    /\ (forall k', k' <> k -> get_response k' (wf m1) = get_response k' (wf m))
    /\ requests_buffer (wf m1) = requests_buffer (wf m)
    /\ request_count (wf m1) = request_count (wf m)
    /\ pending_updates (wf m1) = pending_updates (wf m)
    /\ pc m1 = pc m
    /\ step (EvUpdate k r2) m1 = Some m2
    /\ get_response k (wf m2) = r2
    /\ responses_map (wf m2) = <[k := r2]> (responses_map (wf m)).
Proof.
  intros Hs. unfold step. rewrite Hs. eexists. eexists.
  split; [reflexivity|]. simpl. rewrite Hs.
  split; [unfold get_response; simpl; by rewrite lookup_insert_eq|].
  split.
  { intros k' Hne. unfold get_response. simpl. by rewrite lookup_insert_ne. }
  repeat (split; [reflexivity|]).
  split; [unfold get_response; simpl; by rewrite lookup_insert_eq|].
  simpl. apply insert_insert_eq.
Qed.

Lemma client_update_round_trip_witness :
  exists m1,
    step (EvUpdate "9" "first") boot = Some m1
    /\ get_response "9" (wf m1) = "first"%string.
Proof.
  destruct (client_update_round_trip boot "9" "first" "second")
    as (m1 & m2 & Hstep & Hget & _); [reflexivity|].
  exists m1. split; [exact Hstep | exact Hget].
Defined.

(** X7. A response that a client writes for the id of the request whose
    activity is outstanding is replaced by the result, the uppercase of the
    request's ASCII input, when the activity succeeds, and stays in the
    table when the activity fails. *)
Theorem activity_result_replaces_client_update (m : Machine) (req : Request) (r : string) :
  pc m = AtActivity req ->
  ascii_only (input req) = true ->
  (exists m', run_events [EvUpdate (id req) r; EvActivityDone true] m = Some m'
     /\ responses_map (wf m') !! id req = Some (uppercase_activity (input req)))
  /\ (exists m', run_events [EvUpdate (id req) r; EvActivityDone false] m = Some m'
        /\ responses_map (wf m') !! id req = Some r).
Proof.
  intros Hpc Hascii. simpl. unfold step. rewrite Hpc. simpl. split.
  - eexists. split; [reflexivity|]. simpl. by rewrite lookup_insert_eq.
  - eexists. split; [reflexivity|]. simpl. by rewrite lookup_insert_eq.
Qed.

Lemma activity_result_replaces_client_update_witness :
  exists m',
    run_events [EvUpdate "1" "guess"; EvActivityDone true]
      (mkMachine (mkWorkflow [] ∅ 1 1 5 EmptyString) (AtActivity (mkRequest "1" "foo0")) [])
      = Some m'
    /\ responses_map (wf m') !! "1"%string = Some "FOO0"%string.
Proof.
  destruct (activity_result_replaces_client_update
              (mkMachine (mkWorkflow [] ∅ 1 1 5 EmptyString)
                         (AtActivity (mkRequest "1" "foo0")) [])
              (mkRequest "1" "foo0") "guess")
    as [(m' & Hrun & Hget) _]; [reflexivity | reflexivity |].
  exists m'. split; [exact Hrun | exact Hget].
Defined.

(** X8. Requests signalled while [run] is suspended are appended to the
    buffer in the order of their arrival, behind the requests already
    buffered; nothing else of the state changes. *)
Theorem signals_enqueue_in_order (reqs : list Request) :
  forall m : Machine,
  suspended (pc m) = true ->
  run_events (map EvSignal reqs) m
  = Some (mkMachine (with_buffer (requests_buffer (wf m) ++ reqs) (wf m))
                    (pc m) (completed m)).
Proof.
  induction reqs as [|req reqs IH]; intros m Hs.
  - simpl. rewrite app_nil_r. destruct m as [[] ? ?]; reflexivity.
  - cbn [map]. rewrite run_events_cons.
    assert (Hstep : step (EvSignal req) m
                    = Some (mkMachine (request req (wf m)) (pc m) (completed m)))
      by (unfold step; rewrite Hs; reflexivity).
    rewrite Hstep, IH by exact Hs. simpl. unfold with_buffer. simpl.
    by rewrite <- app_assoc.
Qed.

Lemma signals_enqueue_in_order_witness :
  requests_buffer <$> (wf <$> run_events (map EvSignal five_requests) boot)
  = Some five_requests.
Proof.
  rewrite (signals_enqueue_in_order five_requests boot); reflexivity.
Defined.

Lemma poll_skips_empty (k : string) (snapshot : nat -> Workflow) (len : nat) :
  forall first n : nat,
  (first <= n < first + len)%nat ->
  (forall j, (first <= j < n)%nat -> get_response k (snapshot j) = EmptyString) ->
  truthy (get_response k (snapshot n)) = true ->
  poll (seq first len) snapshot k = get_response k (snapshot n).
Proof.
  induction len as [|len IH]; intros first n Hn Hbefore Hhit; [lia|].
  simpl. destruct (decide (first = n)) as [->|Hne].
  - rewrite Hhit. reflexivity.
  - rewrite (Hbefore first) by lia. simpl.
    apply IH; [lia | intros j Hj; apply Hbefore; lia | exact Hhit].
Qed.

Lemma poll_all_empty (k : string) (snapshot : nat -> Workflow) (len : nat) :
  forall first : nat,
  (forall j, (first <= j < first + len)%nat -> get_response k (snapshot j) = EmptyString) ->
  poll (seq first len) snapshot k = EmptyString.
Proof.
  induction len as [|len IH]; intros first Hall; [reflexivity|].
  simpl. rewrite (Hall first) by lia. simpl.
  apply IH. intros j Hj. apply Hall. lia.
Qed.

(** X9. The polling loop of the requester returns the first response that
    is not empty among its 20 queries, and the empty string when those 20
    are all empty, whatever a later query would read. *)
Theorem poll_returns_first_answer (snapshot : nat -> Workflow) (k : string) :
  (forall n : nat,
      (n < 20)%nat ->
      (forall j, (j < n)%nat -> get_response k (snapshot j) = EmptyString) ->
      get_response k (snapshot n) <> EmptyString ->
      request_uppercase_poll snapshot k = get_response k (snapshot n))
  /\ ((forall j, (j < 20)%nat -> get_response k (snapshot j) = EmptyString) ->
      request_uppercase_poll snapshot k = EmptyString).
Proof.
  unfold request_uppercase_poll. split.
  - intros n Hn Hbefore Hhit. apply poll_skips_empty; [lia | |].
    + intros j Hj. apply Hbefore. lia.
    + destruct (get_response k (snapshot n)); [congruence | reflexivity].
  - intros Hall. apply poll_all_empty. intros j Hj. apply Hall. lia.
Qed.

Lemma poll_returns_first_answer_witness :
  request_uppercase_poll
    (fun n => if Nat.ltb n 3 then wf boot else wf five_drained) "2" = "FOO1"%string
  /\ request_uppercase_poll
       (fun n => if Nat.ltb n 20 then wf boot else wf five_drained) "2" = EmptyString.
Proof.
  split.
  - apply (proj1 (poll_returns_first_answer
                    (fun n => if Nat.ltb n 3 then wf boot else wf five_drained) "2") 3%nat).
    + lia.
    + intros j Hj. destruct j as [|[|[|j]]]; [reflexivity | reflexivity | reflexivity | lia].
    + vm_compute. discriminate.
  - apply (proj2 (poll_returns_first_answer
                    (fun n => if Nat.ltb n 20 then wf boot else wf five_drained) "2")).
    intros j Hj. apply Nat.ltb_lt in Hj. rewrite Hj. reflexivity.
Defined.

Lemma answers_step (req_id text : string) (ev : Event) (m m' : Machine) :
  undisturbed req_id text ev -> step ev m = Some m' ->
  answers req_id text m -> answers req_id text m'.
Proof.
  intros Hev Hstep (Htab & Hbuf & Hact & Hcont). unfold answers, step in *.
  destruct ev as [req | k r | k | ok |].
  - destruct (suspended (pc m)) eqn:Hs; inversion Hstep; subst; simpl.
    refine (conj Htab (conj _ (conj Hact Hcont))).
    intros r Hin. apply elem_of_app in Hin as [Hin | Hin]; [by apply Hbuf|].
    apply list_elem_of_singleton in Hin. subst r. exact Hev.
  - destruct (suspended (pc m)) eqn:Hs; inversion Hstep; subst; simpl.
    refine (conj _ (conj Hbuf (conj Hact Hcont))).
    intros v. simpl in Hev. rewrite lookup_insert_ne by assumption. apply Htab.
  - destruct (suspended (pc m)); inversion Hstep; subst.
    exact (conj Htab (conj Hbuf (conj Hact Hcont))).
  - destruct (pc m) as [| | req | |] eqn:Hpc; inversion Hstep; subst; simpl.
    refine (conj _ (conj _ (conj _ _))).
    + intros v. destruct ok; simpl; [|apply Htab].
      destruct (decide (id req = req_id)) as [Hid|Hne].
      * pose proof (Hact req eq_refl Hid) as Hinput.
        rewrite <- Hid, lookup_insert_eq. intros Hv. inversion Hv.
        rewrite Hinput. reflexivity.
      * rewrite lookup_insert_ne by assumption. apply Htab.
    + destruct ok; exact Hbuf.
    + intros r Hr. discriminate.
    + intros p v Hp. discriminate.
  - destruct (pc m) as [| | req | | params] eqn:Hpc.
    + destruct (requests_buffer (wf m)) eqn:Hb; inversion Hstep; subst; simpl.
      rewrite Hb.
      refine (conj Htab (conj Hbuf (conj _ _))); intros; discriminate.
    + destruct (requests_buffer (wf m)) as [|req rest] eqn:Hb;
        inversion Hstep; subst; simpl.
      * rewrite Hb.
        refine (conj Htab (conj _ (conj _ _))); [| intros; discriminate ..].
        intros r Hin. inversion Hin.
      * refine (conj Htab (conj _ (conj _ _))).
        -- intros r Hin. apply Hbuf. by right.
        -- intros r Hr. inversion Hr; subst. apply Hbuf. by left.
        -- intros; discriminate.
    + discriminate.
    + destruct (should_continue (wf m)); inversion Hstep; subst; simpl.
      * refine (conj Htab (conj Hbuf (conj _ _))); [intros; discriminate|].
        intros p v Hp. inversion Hp; subst. simpl. apply Htab.
      * refine (conj Htab (conj Hbuf (conj _ _))); intros; discriminate.
    + inversion Hstep; subst; simpl.
      refine (conj _ (conj _ (conj _ _))); [| | intros; discriminate ..].
      * intros v Hv. apply (Hcont params v eq_refl).
        rewrite <- (init_responses params). exact Hv.
      * intros r Hin. inversion Hin.
Qed.

Lemma answers_run (req_id text : string) (evs : list Event) :
  forall m m' : Machine,
  Forall (undisturbed req_id text) evs -> run_events evs m = Some m' ->
  answers req_id text m -> answers req_id text m'.
Proof.
  induction evs as [|ev evs IH]; intros m m' Hall Hrun Hans.
  - inversion Hrun; subst. exact Hans.
  - inversion Hall; subst. rewrite run_events_cons in Hrun.
    destruct (step ev m) as [m1|] eqn:Hstep; [|discriminate].
    apply (IH m1 m'); [assumption | assumption |].
    eapply answers_step; eassumption.
Qed.







Lemma poll_workflow_sound (req_id text : string) (schedule : nat -> list Event)
      (attempts : list nat) :
  forall (m : Machine) (r : string),
  (forall n, Forall (undisturbed req_id text) (schedule n)) ->
  answers req_id text m ->
  poll_workflow attempts schedule req_id m = Some r ->
  r = EmptyString \/ r = uppercase_activity text.
Proof.
  induction attempts as [|n rest IH]; intros m r Hsched Hans Hpoll; simpl in Hpoll.
  - inversion Hpoll. by left.
  - destruct (run_events (schedule n ++ [EvQuery req_id]) m) as [m'|] eqn:Hrun;
      [|discriminate].
    assert (Hans' : answers req_id text m').
    { apply (answers_run req_id text (schedule n ++ [EvQuery req_id]) m m');
        [|exact Hrun | exact Hans].
      apply Forall_app. split; [apply Hsched | repeat constructor]. }
    destruct (truthy (get_response req_id (wf m'))) eqn:Htruthy.
    + inversion Hpoll; subst. right. unfold get_response in *.
      destruct (responses_map (wf m') !! req_id) as [v|] eqn:Hv;
        [|discriminate].
      simpl. apply (proj1 Hans' v Hv).
    + apply (IH m' r); assumption.
Qed.

(** X10. The requester never returns a wrong answer for ASCII text: when
    its request id is new to the workflow, no client writes a response for
    that id and no other request carries it with another input,
    [request_uppercase] returns the uppercase of its text or, when it gives
    up, the empty string. *)
Theorem request_uppercase_sound
  (req_id text : string) (schedule : nat -> list Event) (m : Machine) (r : string) :
  ascii_only text = true ->
  responses_map (wf m) !! req_id = None ->
  (forall req, req ∈ requests_buffer (wf m) -> id req <> req_id) ->
  (forall req, pc m = AtActivity req -> id req <> req_id) ->
  (forall n, Forall (undisturbed req_id text) (schedule n)) ->
  request_uppercase req_id text schedule m = Some r ->
  r = EmptyString \/ r = uppercase_activity text.
Proof.
  intros Hascii Hfresh Hbuf Hact Hsched Hreq. unfold request_uppercase in Hreq.
  destruct (step (EvSignal (mkRequest req_id text)) m) as [m0|] eqn:Hstep;
    [|discriminate].
  apply (poll_workflow_sound req_id text schedule (seq 0 20) m0 r Hsched);
    [|exact Hreq].
  apply (answers_step req_id text (EvSignal (mkRequest req_id text)) m m0);
    [intros _; reflexivity | exact Hstep |].
  unfold answers. refine (conj _ (conj _ (conj _ _))).
  - intros v Hv. congruence.
  - intros req Hin Hid. destruct (Hbuf req Hin Hid).
  - intros req Hpc Hid. destruct (Hact req Hpc Hid).
  - intros params v Hpc. unfold step in Hstep. rewrite Hpc in Hstep. discriminate.
Qed.

(** The workflow drains its buffer before the third query. *)
Definition drains_before_third (n : nat) : list Event :=
  if Nat.eqb n 2 then [EvRun; EvRun; EvActivityDone true; EvRun; EvRun] else [].

Lemma request_uppercase_sound_witness :
  request_uppercase "1" "foo0" drains_before_third boot = Some "FOO0"%string
  /\ ("FOO0"%string = EmptyString \/ "FOO0"%string = uppercase_activity "foo0").
Proof.
  split; [vm_compute; reflexivity|].
  apply (request_uppercase_sound "1" "foo0" drains_before_third boot "FOO0").
  - reflexivity.
  - reflexivity.
  - intros req Hin. inversion Hin.
  - intros req Hpc. discriminate.
  - intros n. unfold drains_before_third. destruct (Nat.eqb n 2); repeat constructor.
  - vm_compute. reflexivity.
Defined.

Lemma upper_ascii_cases (c : ascii) :
  Nat.ltb (nat_of_ascii c) 128 = true ->
  upper_ascii (upper_ascii c) = upper_ascii c
  /\ lowercase_letter (upper_ascii c) = false
  /\ Nat.ltb (nat_of_ascii (upper_ascii c)) 128 = true
  /\ (lowercase_letter c = false -> upper_ascii c = c).
Proof.
  destruct c as [[] [] [] [] [] [] [] []]; vm_compute; intros Hc;
    try discriminate; repeat split; intros; try reflexivity; try discriminate.
Qed.

(** X11. On ASCII text the uppercase activity keeps the length of its
    input, leaves no lowercase letter, gives ASCII text again, is the
    identity on text without lowercase letters, and applying it twice is
    the same as applying it once. *)
Theorem uppercase_activity_ascii (text : string) :
  ascii_only text = true ->
  String.length (uppercase_activity text) = String.length text
  /\ has_lowercase (uppercase_activity text) = false
  /\ ascii_only (uppercase_activity text) = true
  /\ uppercase_activity (uppercase_activity text) = uppercase_activity text
  /\ (has_lowercase text = false -> uppercase_activity text = text).
Proof.
  unfold uppercase_activity. induction text as [|c rest IH]; intros Hascii.
  - repeat split.
  - simpl in Hascii. apply andb_prop in Hascii as [Hc Hrest].
    destruct (IH Hrest) as (Hlen & Hlow & Hasc & Hidem & Hid).
    destruct (upper_ascii_cases c Hc) as (Hc1 & Hc2 & Hc3 & Hc4).
    simpl. rewrite Hlen, Hlow, Hasc, Hidem, Hc1, Hc2, Hc3.
    repeat split. intros Hno. apply orb_false_elim in Hno as [Hnc Hnrest].
    rewrite (Hc4 Hnc), (Hid Hnrest). reflexivity.
Qed.

Lemma uppercase_activity_ascii_witness :
  String.length (uppercase_activity "foo0") = 4%nat
  /\ uppercase_activity (uppercase_activity "foo0") = uppercase_activity "foo0".
Proof.
  destruct (uppercase_activity_ascii "foo0") as (Hlen & _ & _ & Hidem & _);
    [reflexivity|].
  split; [exact Hlen | exact Hidem].
Defined.

(** X12. A [Requester] is built exactly when its options hold a client and
    a target workflow id that is not empty; a missing client is reported
    first, also when the target is missing as well. *)
Theorem requester_needs_client_and_target (options : RequesterOptions) :
  (Requester_init options = inr options
   <-> is_Some (client options) /\ target_workflow_id options <> EmptyString)
  /\ (Requester_init options = inl ClientRequired <-> client options = None)
  /\ (Requester_init options = inl TargetWorkflowRequired
      <-> is_Some (client options) /\ target_workflow_id options = EmptyString).
Proof.
  unfold Requester_init.
  destruct (client options) as [c|]; destruct (target_workflow_id options) as [|a rest];
    simpl; repeat split; intros; try discriminate; try congruence; eauto;
    try (match goal with H : _ /\ _ |- _ => destruct H as [[? ?] ?] end;
         try discriminate; congruence).
Qed.

End QueueLaws.

(** ** Further properties of the greeting workflow *)

Module GreetingLaws.
Import Greeting Languages GreetingFacts.

Section WithLanguage.

Context {Language : Type} `{Countable Language}.
Variables (CHINESE ENGLISH : Language).

Lemma step_transition (ev : Event Language) (m m' : Machine Language) (out : Output Language) :
  step ev m = Some (m', out) -> transition m m'.
Proof.
  unfold step. intros Hstep.
  destruct ev as [name | l | h l | | h r | | |].
  - destruct (idle m) eqn:Hidle; inversion Hstep; subst. by apply t_approve.
  - destruct (idle m) eqn:Hidle; [|discriminate].
    unfold update_set_language, validate_language, supported in Hstep.
    case_bool_decide; simpl in Hstep; inversion Hstep; subst.
    + by apply t_set_language.
    + destruct m. by apply t_same.
  - destruct (idle m) eqn:Hidle; [|discriminate].
    destruct (handlers m !! h) eqn:Hh; inversion Hstep; subst.
    unfold begin_update, supported. case_bool_decide as Hsup.
    + by apply t_begin_supported.
    + assert (Hnone : greetings (wf m) !! l = None).
      { destruct (greetings (wf m) !! l) eqn:Hl; [|reflexivity].
        destruct Hsup. eauto. }
      unfold acquire.
      destruct (owner (lock (wf m))) as [h1|] eqn:Ho;
        [|destruct (waiters (lock (wf m))) as [|h2 rest] eqn:Hw].
      * rewrite <- Ho. apply t_begin_wait; try assumption. left. rewrite Ho. eauto.
      * by apply t_begin_acquire.
      * rewrite <- Ho, <- Hw. apply t_begin_wait; try assumption.
        right. by rewrite Hw.
  - destruct (idle m) eqn:Hidle; [|discriminate].
    destruct (owner (lock (wf m))) eqn:Ho; [discriminate|].
    destruct (waiters (lock (wf m))) as [|h rest] eqn:Hw; [discriminate|].
    destruct (handlers m !! h) as [[l|l]|] eqn:Hh; inversion Hstep; subst.
    by apply t_granted.
  - destruct (idle m) eqn:Hidle; [|discriminate].
    destruct (handlers m !! h) as [[l|l]|] eqn:Hh; inversion Hstep as [Hend].
    unfold end_activity in Hend. destruct r as [[greeting|]|]; inversion Hend; subst.
    + by apply t_greeting.
    + by apply (t_failed m h l).
    + by apply (t_failed m h l).
  - destruct (running m) as [[h l]|] eqn:Hr; [|discriminate].
    destruct (main m) eqn:Hm; inversion Hstep; subst.
    rewrite <- Hm. by apply (t_resume m h l).
  - destruct (idle m) eqn:Hidle; inversion Hstep; subst. by apply t_same.
  - destruct (idle m) eqn:Hidle; [|discriminate].
    destruct (approved_for_release (wf m)) eqn:Happ; [|discriminate].
    destruct (all_handlers_finished m) eqn:Hfin; [|discriminate]. simpl in Hstep.
    unfold all_handlers_finished in Hfin. apply andb_prop in Hfin as [Hh _].
    apply bool_decide_eq_true in Hh.
    destruct (greetings (wf m) !! language (wf m));
      inversion Hstep; subst; by apply t_run.
Qed.

Ltac transition_cases Ht :=
  destruct Ht as
    [ name Hidle | Hidle | l Hidle Hsup | h l Hidle Hh Hsup
    | h l Hidle Hh Hl Ho Hw | h l Hidle Hh Hl Hbusy | h l rest Hidle Ho Hw Hh
    | h l greeting Hidle Hh | h l Hidle Hh | h l Hr Hm | result Hidle Happ Hh ].

Lemma queue_ok_transition (m m' : Machine Language) :
  transition m m' -> queue_ok m -> queue_ok m'.
Proof.
  intros Ht [Hnd Hiff]. transition_cases Ht; unfold queue_ok; simpl;
    try (split; assumption).
  - split; [constructor|]. intros h0. split; [intros Hin; inversion Hin|].
    intros [l0 Hl0]. destruct (decide (h = h0)) as [->|Hne].
    + rewrite lookup_insert_eq in Hl0. discriminate.
    + rewrite lookup_insert_ne in Hl0 by assumption.
      rewrite <- Hw. apply Hiff. eauto.
  - assert (Hfresh : h ∉ waiters (lock (wf m))).
    { intros Hin. apply Hiff in Hin as [l0 Hl0]. congruence. }
    split.
    + apply NoDup_app. split; [assumption|]. split; [|apply NoDup_singleton].
      intros x Hx Hx'. apply list_elem_of_singleton in Hx'. subst x. contradiction.
    + intros h0. rewrite elem_of_app, list_elem_of_singleton.
      destruct (decide (h = h0)) as [->|Hne].
      * rewrite lookup_insert_eq. split; [eauto | auto].
      * rewrite lookup_insert_ne by assumption. rewrite Hiff.
        split; [intros [Hin | Heq]; [assumption | congruence] | auto].
  - rewrite Hw in Hnd. apply NoDup_cons in Hnd as [Hnotin Hnd'].
    split; [assumption|]. intros h0.
    destruct (decide (h = h0)) as [->|Hne].
    + rewrite lookup_insert_eq. split; [contradiction | intros [l0 Hl0]; discriminate].
    + rewrite lookup_insert_ne by assumption. rewrite <- Hiff, Hw.
      rewrite elem_of_cons. split; [auto | intros [Heq | Hin]; [congruence | assumption]].
  - split; [assumption|]. intros h0. destruct (decide (h = h0)) as [->|Hne].
    + rewrite lookup_delete_eq. split; [|intros [l0 Hl0]; discriminate].
      intros Hin. apply Hiff in Hin as [l0 Hl0]. congruence.
    + rewrite lookup_delete_ne by assumption. apply Hiff.
  - split; [assumption|]. intros h0. destruct (decide (h = h0)) as [->|Hne].
    + rewrite lookup_delete_eq. split; [|intros [l0 Hl0]; discriminate].
      intros Hin. apply Hiff in Hin as [l0 Hl0]. congruence.
    + rewrite lookup_delete_ne by assumption. apply Hiff.
Qed.

Lemma reachable_queue_ok (m : Machine Language) :
  reachable CHINESE ENGLISH m -> queue_ok m.
Proof.
  induction 1 as [|m ev m' out _ IH Hstep].
  - split; simpl; [constructor|]. intros h. split; [intros Hin; inversion Hin|].
    intros [l Hl]. rewrite lookup_empty in Hl. discriminate.
  - eapply queue_ok_transition; [eapply step_transition; exact Hstep | exact IH].
Qed.

Lemma builtin_ok_transition (m m' : Machine Language) :
  transition m m' -> builtin_ok CHINESE ENGLISH m -> builtin_ok CHINESE ENGLISH m'.
Proof.
  intros Ht [Hkept Hwant]. transition_cases Ht; unfold builtin_ok; simpl;
    try (split; assumption).
  - split; [assumption|]. intros h0 p. destruct (decide (h = h0)) as [->|Hne].
    + rewrite lookup_insert_eq. intros Hp. inversion Hp; subst. simpl.
      destruct (greetings (init CHINESE ENGLISH) !! l) as [v|] eqn:Hv; [|exact Hv].
      rewrite (Hkept l v Hv) in Hl. discriminate.
    + rewrite lookup_insert_ne by assumption. apply Hwant.
  - split; [assumption|]. intros h0 p. destruct (decide (h = h0)) as [->|Hne].
    + rewrite lookup_insert_eq. intros Hp. inversion Hp; subst. simpl.
      destruct (greetings (init CHINESE ENGLISH) !! l) as [v|] eqn:Hv; [|exact Hv].
      rewrite (Hkept l v Hv) in Hl. discriminate.
    + rewrite lookup_insert_ne by assumption. apply Hwant.
  - split; [assumption|]. intros h0 p. destruct (decide (h = h0)) as [->|Hne].
    + rewrite lookup_insert_eq. intros Hp. inversion Hp; subst.
      apply (Hwant h0 (WaitLock l) Hh).
    + rewrite lookup_insert_ne by assumption. apply Hwant.
  - pose proof (Hwant h (InActivity l) Hh) as Hnew. simpl in Hnew. split.
    + intros l0 v Hv. destruct (decide (l = l0)) as [->|Hne]; [congruence|].
      rewrite lookup_insert_ne by assumption. by apply Hkept.
    + intros h0 p Hp. apply lookup_delete_Some in Hp as [_ Hp]. by apply (Hwant h0).
  - split; [assumption|].
    intros h0 p Hp. apply lookup_delete_Some in Hp as [_ Hp]. by apply (Hwant h0).
Qed.

Lemma reachable_builtin_ok (m : Machine Language) :
  reachable CHINESE ENGLISH m -> builtin_ok CHINESE ENGLISH m.
Proof.
  induction 1 as [|m ev m' out _ IH Hstep].
  - split; [auto|]. simpl. intros h p Hp. rewrite lookup_empty in Hp. discriminate.
  - eapply builtin_ok_transition; [eapply step_transition; exact Hstep | exact IH].
Qed.

Lemma approved_transition (m m' : Machine Language) :
  transition m m' -> approved_for_release (wf m) = true ->
  approved_for_release (wf m') = true.
Proof. intros Ht Happroved. transition_cases Ht; simpl; auto. Qed.

(** X13. Once the workflow has been approved it stays approved: no
    signal, update, query or step of a handler takes the approval back. *)
Theorem approval_is_final (evs : list (Event Language)) :
  forall m m' : Machine Language,
  run_events evs m = Some m' ->
  approved_for_release (wf m) = true ->
  approved_for_release (wf m') = true.
Proof.
  induction evs as [|ev evs IH]; intros m m' Hrun Happroved; simpl in Hrun.
  - inversion Hrun; subst. exact Happroved.
  - destruct (step ev m) as [[m1 out]|] eqn:Hstep; [|discriminate].
    apply (IH m1 m' Hrun). eapply approved_transition; [|exact Happroved].
    eapply step_transition. exact Hstep.
Qed.

(** X14. In every reachable state the current language has a greeting, so
    the last line of [run] never raises [KeyError]: when [run] is resumed and
    its condition holds it returns a greeting. *)
Theorem run_never_raises (m : Machine Language) :
  reachable CHINESE ENGLISH m ->
  is_Some (greetings (wf m) !! language (wf m))
  /\ forall (m' : Machine Language) (out : Output Language),
       step EvRun m = Some (m', out) ->
       exists greeting,
         greetings (wf m) !! language (wf m) = Some greeting
         /\ out = Result greeting
         /\ main m' = Returned greeting.
Proof.
  intros Hreach. destruct (reachable_consistent CHINESE ENGLISH m Hreach) as (_ & _ & _ & Hlang).
  split; [exact Hlang|]. intros m' out Hstep. unfold step in Hstep.
  destruct (idle m); [|discriminate].
  destruct (approved_for_release (wf m) && all_handlers_finished m); [|discriminate].
  destruct Hlang as [g Hg]. rewrite Hg in Hstep. inversion Hstep; subst.
  exists g. repeat split. exact Hg.
Qed.

(** X15. At most one greeting service call is outstanding at a time: two
    handlers that both stand inside the [async with] block are the same
    handler. *)
Theorem one_service_call_at_a_time
  (m : Machine Language) (h1 h2 : nat) (l1 l2 : Language) :
  reachable CHINESE ENGLISH m ->
  handlers m !! h1 = Some (InActivity l1) ->
  handlers m !! h2 = Some (InActivity l2) ->
  h1 = h2.
Proof.
  intros Hreach Hh1 Hh2.
  destruct (reachable_consistent CHINESE ENGLISH m Hreach) as (Hact & _).
  pose proof (Hact h1 l1 Hh1) as Ho1. pose proof (Hact h2 l2 Hh2) as Ho2.
  unfold holds_lock in *. congruence.
Qed.

(** X16. The greetings that [__init__] puts into the dictionary are never
    replaced: in every reachable state each of their languages still has
    the greeting it started with. *)
Theorem builtin_greetings_kept (m : Machine Language) (l : Language) (v : string) :
  reachable CHINESE ENGLISH m ->
  greetings (init CHINESE ENGLISH) !! l = Some v ->
  greetings (wf m) !! l = Some v.
Proof.
  intros Hreach. apply (proj1 (reachable_builtin_ok m Hreach)).
Qed.

(** X17. No step removes a language from the dictionary of greetings. *)
Theorem greeting_keys_never_removed
  (ev : Event Language) (m m' : Machine Language) (out : Output Language)
  (lang : Language) :
  step ev m = Some (m', out) ->
  is_Some (greetings (wf m) !! lang) ->
  is_Some (greetings (wf m') !! lang).
Proof.
  intros Hstep Hlang. apply step_transition in Hstep.
  transition_cases Hstep; simpl; try assumption.
  rewrite lookup_insert. case_decide; [eauto | assumption].
Qed.

(** X18. For a language that already has a greeting,
    [set_language_using_activity] does what [set_language] does: it swaps
    the current language and returns the previous one, without touching the
    lock, the dictionary or the suspended handlers, and without a call of
    the greeting service. *)
Theorem supported_update_skips_lock (m : Machine Language) (h : nat) (lang : Language) :
  idle m = true ->
  handlers m !! h = None ->
  is_Some (greetings (wf m) !! lang) ->
  exists m1 m2,
    step (EvSetLanguageUsingActivity h lang) m = Some (m1, NoOutput)
    /\ handlers m1 = handlers m
    /\ lock (wf m1) = lock (wf m)
    /\ step EvResume m1 = Some (m2, Previous (language (wf m)))
    /\ step (EvSetLanguage lang) m = Some (m2, Previous (language (wf m)))
    /\ language (wf m2) = lang
    /\ greetings (wf m2) = greetings (wf m)
    /\ lock (wf m2) = lock (wf m).
Proof.
  intros Hidle Hh Hsup.
  destruct (idle_running m Hidle) as [Hr Hm].
  unfold step at 1. rewrite Hidle, Hh. unfold begin_update, supported.
  rewrite bool_decide_eq_true_2 by assumption.
  eexists. eexists. split; [reflexivity|].
  split; [reflexivity|]. split; [reflexivity|].
  unfold step. simpl. rewrite Hm, Hidle.
  unfold update_set_language, validate_language, supported.
  rewrite bool_decide_eq_true_2 by assumption. simpl. rewrite Hr.
  repeat split.
Qed.

(** X19. For a language without a greeting, with the lock free and nobody
    waiting, [set_language_using_activity] takes the lock, and when the
    service returns a greeting it stores the greeting, frees the lock, makes
    the language current and returns the previous language; afterwards
    [set_language] accepts the language. *)
Theorem unsupported_update_adds_greeting
  (m : Machine Language) (h : nat) (lang : Language) (greeting : string) :
  idle m = true ->
  handlers m !! h = None ->
  greetings (wf m) !! lang = None ->
  lock (wf m) = mkLock None [] ->
  exists m1 m2 m3,
    step (EvSetLanguageUsingActivity h lang) m = Some (m1, NoOutput)
    /\ holds_lock h m1
    /\ step (EvGreetingService h (Greeting (Some greeting))) m1 = Some (m2, NoOutput)
    /\ step EvResume m2 = Some (m3, Previous (language (wf m)))
    /\ language (wf m3) = lang
    /\ greetings (wf m3) = <[lang := greeting]> (greetings (wf m))
    /\ lock (wf m3) = mkLock None []
    /\ handlers m3 = handlers m
    /\ validate_language lang (wf m3) = true.
Proof.
  intros Hidle Hh Hnone Hlock.
  destruct (idle_running m Hidle) as [Hr Hm].
  unfold step at 1. rewrite Hidle, Hh. unfold begin_update, supported, acquire.
  rewrite bool_decide_eq_false_2 by (rewrite Hnone; intros [v Hv]; discriminate).
  rewrite Hlock. simpl.
  eexists. eexists. eexists. split; [reflexivity|].
  split; [reflexivity|].
  unfold step, idle. simpl. rewrite Hm, lookup_insert_eq. simpl.
  split; [reflexivity|]. split; [reflexivity|]. simpl.
  split; [reflexivity|]. split; [reflexivity|]. split; [reflexivity|].
  split; [by apply delete_insert_id|].
  unfold validate_language, supported. simpl.
  apply bool_decide_eq_true_2. rewrite lookup_insert_eq. eauto.
Qed.

(** X20. When the lock is free and handlers wait for it, the handler that
    has waited longest can take it: the grant is enabled, that handler
    enters the block and calls the service, and the others keep their
    order. *)
Theorem lock_passes_to_oldest_waiter (m : Machine Language) (h : nat) (rest : list nat) :
  reachable CHINESE ENGLISH m ->
  idle m = true ->
  owner (lock (wf m)) = None ->
  waiters (lock (wf m)) = h :: rest ->
  exists lang m',
    handlers m !! h = Some (WaitLock lang)
    /\ step EvLockGranted m = Some (m', NoOutput)
    /\ holds_lock h m'
    /\ handlers m' !! h = Some (InActivity lang)
    /\ waiters (lock (wf m')) = rest.
Proof.
  intros Hreach Hidle Ho Hw.
  destruct (reachable_queue_ok m Hreach) as [_ Hiff].
  destruct (proj1 (Hiff h)) as [lang Hlang]; [rewrite Hw; by left|].
  exists lang. unfold step. rewrite Hidle, Ho, Hw, Hlang.
  eexists. split; [exact eq_refl|]. split; [reflexivity|].
  split; [reflexivity|]. simpl. split; [by rewrite lookup_insert_eq | reflexivity].
Qed.

(** X21. In every reachable state the waiters of the lock are exactly the
    handlers suspended at the [async with] line, each of them once. *)
Theorem waiters_are_waiting_handlers (m : Machine Language) (h : nat) :
  reachable CHINESE ENGLISH m ->
  NoDup (waiters (lock (wf m)))
  /\ (h ∈ waiters (lock (wf m)) <-> exists lang, handlers m !! h = Some (WaitLock lang)).
Proof.
  intros Hreach. destruct (reachable_queue_ok m Hreach) as [Hnd Hiff].
  split; [exact Hnd | apply Hiff].
Qed.

(** X22. When the greeting service call raises, the update fails with the
    error of the activity, the lock is free again, and the dictionary, the
    current language and the waiters of the lock are as before. *)
Theorem service_error_releases_lock (m : Machine Language) (h : nat) (lang : Language) :
  reachable CHINESE ENGLISH m ->
  idle m = true ->
  handlers m !! h = Some (InActivity lang) ->
  holds_lock h m
  /\ exists m',
       step (EvGreetingService h ServiceError) m = Some (m', ActivityError)
       /\ owner (lock (wf m')) = None
       /\ waiters (lock (wf m')) = waiters (lock (wf m))
       /\ greetings (wf m') = greetings (wf m)
       /\ language (wf m') = language (wf m)
       /\ handlers m' = delete h (handlers m)
       /\ running m' = None.
Proof.
  intros Hreach Hidle Hh.
  destruct (reachable_consistent CHINESE ENGLISH m Hreach) as (Hact & _).
  split; [exact (Hact h lang Hh)|].
  unfold step. rewrite Hidle, Hh. eexists. split; [reflexivity|].
  simpl. repeat split.
Qed.

Section Listing.

Variable members : list Language.
Variable value : Language -> Z.

Lemma by_value_total : Total (by_value value).
Proof. intros a b. unfold by_value. lia. Qed.

(** X23. [get_languages] without the unsupported ones lists exactly the
    languages that the validator of [set_language] accepts, each once, in
    ascending order; with them it lists the members of the enumeration in
    ascending order. *)
Theorem get_languages_lists_supported (w : Workflow Language) :
  (forall lang, lang ∈ get_languages members value false w
                <-> validate_language lang w = true)
  /\ NoDup (get_languages members value false w)
  /\ Sorted (by_value value) (get_languages members value false w)
  /\ get_languages members value true w ≡ₚ members
  /\ Sorted (by_value value) (get_languages members value true w).
Proof.
  unfold get_languages, sorted. pose proof by_value_total as Htotal.
  split; [|split; [|split; [|split]]].
  - intros lang. rewrite merge_sort_Permutation.
    unfold validate_language, supported. rewrite bool_decide_eq_true.
    rewrite list_elem_of_fmap. split.
    + intros [[k v] [-> Hin]]. apply elem_of_map_to_list in Hin. simpl. eauto.
    + intros [v Hv]. exists (lang, v). split; [reflexivity|].
      by apply elem_of_map_to_list.
  - rewrite merge_sort_Permutation. apply NoDup_fst_map_to_list.
  - apply Sorted_merge_sort. exact Htotal.
  - apply merge_sort_Permutation.
  - apply Sorted_merge_sort. exact Htotal.
Qed.

End Listing.

End WithLanguage.

Lemma supported_update_skips_lock_witness :
  exists m1 m2,
    step (EvSetLanguageUsingActivity 0 "CHINESE"%string) scenario_start = Some (m1, NoOutput)
    /\ step EvResume m1 = Some (m2, Previous "ENGLISH"%string)
    /\ step (EvSetLanguage "CHINESE"%string) scenario_start
       = Some (m2, Previous "ENGLISH"%string).
Proof.
  destruct (supported_update_skips_lock scenario_start 0%nat "CHINESE"%string)
    as (m1 & m2 & H1 & _ & _ & H2 & H3 & _);
    [reflexivity | reflexivity | vm_compute; eauto |].
  exists m1, m2. split; [exact H1|]. split; [exact H2 | exact H3].
Defined.

Lemma unsupported_update_adds_greeting_witness :
  exists m1 m2 m3,
    step (EvSetLanguageUsingActivity 0 "FRENCH"%string) scenario_start = Some (m1, NoOutput)
    /\ step (EvGreetingService 0 (Greeting (Some "Bonjour, monde"%string))) m1
       = Some (m2, NoOutput)
    /\ step EvResume m2 = Some (m3, Previous "ENGLISH"%string)
    /\ language (wf m3) = "FRENCH"%string.
Proof.
  destruct (unsupported_update_adds_greeting scenario_start 0%nat "FRENCH"%string
              "Bonjour, monde"%string)
    as (m1 & m2 & m3 & H1 & _ & H2 & H3 & H4 & _);
    [reflexivity | reflexivity | vm_compute; reflexivity | reflexivity |].
  exists m1, m2, m3. split; [exact H1|]. split; [exact H2|].
  split; [exact H3 | exact H4].
Defined.

(** Two updates for languages without a greeting; the first call of the
    service fails, the second handler waits. *)
Definition second_waits : list (Event string) :=
  [EvSetLanguageUsingActivity 0 "FRENCH"%string;
   EvSetLanguageUsingActivity 1 "SPANISH"%string;
   EvGreetingService 0 (Greeting None)].

Lemma second_waits_reachable :
  reachable "CHINESE"%string "ENGLISH"%string (after second_waits).
Proof.
  apply (greeting_events_reachable "CHINESE"%string "ENGLISH"%string
           second_waits scenario_start);
    [vm_compute; reflexivity | constructor].
Qed.

Lemma lock_passes_to_oldest_waiter_witness :
  exists lang m',
    handlers (after second_waits) !! 1%nat = Some (WaitLock lang)
    /\ step EvLockGranted (after second_waits) = Some (m', NoOutput)
    /\ holds_lock 1 m'.
Proof.
  destruct (lock_passes_to_oldest_waiter "CHINESE"%string "ENGLISH"%string
              (after second_waits) 1%nat [])
    as (lang & m' & H1 & H2 & H3 & _);
    [exact second_waits_reachable | reflexivity | reflexivity | reflexivity |].
  exists lang, m'. split; [exact H1|]. split; [exact H2 | exact H3].
Defined.

Lemma waiters_are_waiting_handlers_witness :
  NoDup (waiters (lock (wf (after second_waits)))).
Proof.
  apply (waiters_are_waiting_handlers "CHINESE"%string "ENGLISH"%string
           (after second_waits) 1%nat).
  exact second_waits_reachable.
Defined.

Lemma service_error_releases_lock_witness :
  exists m',
    step (EvGreetingService 0 ServiceError) (after in_flight) = Some (m', ActivityError)
    /\ owner (lock (wf m')) = None.
Proof.
  destruct (service_error_releases_lock "CHINESE"%string "ENGLISH"%string
              (after in_flight) 0%nat "FRENCH"%string)
    as (_ & m' & H1 & H2 & _);
    [exact in_flight_reachable | reflexivity | vm_compute; reflexivity |].
  exists m'. split; [exact H1 | exact H2].
Defined.

Lemma approval_is_final_witness :
  approved_for_release (wf (after finished)) = true.
Proof.
  apply (approval_is_final
           (EvSetLanguageUsingActivity 0 "FRENCH"%string
            :: [EvGreetingService 0 (Greeting (Some "Bonjour, monde"%string)); EvResume])
           (after [EvApprove "alice"]) (after finished));
    [vm_compute; reflexivity | reflexivity].
Defined.

Lemma finished_reachable :
  reachable "CHINESE"%string "ENGLISH"%string (after finished).
Proof.
  apply (greeting_events_reachable "CHINESE"%string "ENGLISH"%string finished scenario_start);
    [vm_compute; reflexivity | constructor].
Qed.

Lemma run_never_raises_witness :
  is_Some (greetings (wf (after finished)) !! language (wf (after finished))).
Proof.
  apply (run_never_raises "CHINESE"%string "ENGLISH"%string (after finished)).
  exact finished_reachable.
Defined.

Lemma one_service_call_at_a_time_witness : 0%nat = 0%nat.
Proof.
  apply (one_service_call_at_a_time "CHINESE"%string "ENGLISH"%string
           (after in_flight) 0 0 "FRENCH"%string "FRENCH"%string);
    [exact in_flight_reachable | vm_compute; reflexivity | vm_compute; reflexivity].
Defined.

Lemma builtin_greetings_kept_witness :
  greetings (wf (after finished)) !! "ENGLISH"%string = Some "Hello, world"%string.
Proof.
  apply (builtin_greetings_kept "CHINESE"%string "ENGLISH"%string (after finished));
    [exact finished_reachable | vm_compute; reflexivity].
Defined.

Lemma greeting_keys_never_removed_witness :
  is_Some (greetings
             (wf (after (in_flight
                         ++ [EvGreetingService 0 (Greeting (Some "Bonjour, monde"%string))])))
           !! "CHINESE"%string).
Proof.
  apply (greeting_keys_never_removed
           (EvGreetingService 0 (Greeting (Some "Bonjour, monde"%string)))
           (after in_flight) _ NoOutput "CHINESE"%string);
    [vm_compute; reflexivity | vm_compute; eauto].
Defined.

End GreetingLaws.
